(** * tg-tui: download orchestration, catalog and scroll window

    A shallow embedding of [src/tg_tui/tg.py] (the [TgClient] class) and of
    the [ScrollableListMixin] of [src/tg_tui/tui.py], followed by the
    properties of the specification that concern them.

    Python objects that are shared and mutated ([TgVideo] instances are held
    by the catalog, by the slot mapping and by the user interface at the same
    time) live in an explicit object store; the two dictionaries of the
    client keep their insertion order, as Python dictionaries do. *)

From Stdlib Require Import ZArith Ascii String List Lia Bool.
From stdpp Require Import base decidable option list strings numbers.
Import ListNotations.

Local Open Scope string_scope.
Local Open Scope list_scope.
Local Open Scope Z_scope.

(** ** Python built-ins used by the program *)

Module Py.

(** Exceptions the modelled code can raise. *)
Inductive exn : Type :=
| TgException (msg : string)      (* tg.py, class TgException *)
| KeyError                        (* dict[k] / dict.pop(k) on a missing key *)
| IndexError                      (* list[i] out of range *)
| TypeError                       (* arithmetic on None *)
| SubscriberError (info : string) (* whatever a download callback raises *)
| InvalidReference.               (* a reference outside the object store;
                                     no Python program can build one *)

Inductive result (A : Type) : Type :=
| Ret (a : A)
| Raise (e : exn).
Arguments Ret {A} a.
Arguments Raise {A} e.

(** [range(lo, hi)] *)
Definition range (lo hi : Z) : list Z :=
  map (fun k => lo + Z.of_nat k) (seq 0 (Z.to_nat (hi - lo))).

(** [l[i]] on a list: a negative index counts from the end. *)
Definition index {A} (l : list A) (i : Z) : result A :=
  let n := Z.of_nat (length l) in
  let j := if i <? 0 then n + i else i in
  if (0 <=? j) && (j <? n)
  then match l !! Z.to_nat j with Some x => Ret x | None => Raise IndexError end
  else Raise IndexError.

(** A [dict]: an association list in insertion order, with at most one
    entry per key. *)
Definition dict (K V : Type) : Type := list (K * V).

Section Dict.
Context {K V : Type} `{EqDecision K}.

(** [d.get(k)] *)
Fixpoint get (d : dict K V) (k : K) : option V :=
  match d with
  | [] => None
  | (k', v) :: d' => if decide (k' = k) then Some v else get d' k
  end.

(** [k in d] *)
Definition contains (d : dict K V) (k : K) : bool :=
  match get d k with Some _ => true | None => false end.

(** [d[k] = v]: an existing key keeps its position, a new one goes last. *)
Fixpoint set (d : dict K V) (k : K) (v : V) : dict K V :=
  match d with
  | [] => [(k, v)]
  | (k', v') :: d' =>
      if decide (k' = k) then (k, v) :: d' else (k', v') :: set d' k v
  end.

(** the mapping left by [d.pop(k)] when [k] is a key of [d] *)
Fixpoint remove (d : dict K V) (k : K) : dict K V :=
  match d with
  | [] => []
  | (k', v) :: d' => if decide (k' = k) then d' else (k', v) :: remove d' k
  end.

(** [list(d.values())] *)
Definition values (d : dict K V) : list V := map snd d.

(** [list(d.keys())] *)
Definition keys (d : dict K V) : list K := map fst d.

(** [{**a, **b}] *)
Definition merge (a b : dict K V) : dict K V :=
  fold_left (fun acc kv => set acc (fst kv) (snd kv)) b a.
End Dict.

End Py.

(** ** tg.py *)

Module Tg.
Import Py.

Definition chat_id : Z := 0.

(** A reference to a [TgVideo] object: its index in the object store. *)
Definition ref : Type := nat.

Record TgVideo : Type := mkTgVideo {
  caption : option string;
  duration : Z;
  expected_size : Z;
  downloaded_size : Z;
  file_id : Z;
  message_id : Z;
  album : option (list Z);
  local_path : option string;
  source_group : option string
}.

#[global] Instance TgVideo_eq_dec : EqDecision TgVideo.
Proof. solve_decision. Defined.

(** [TgVideo.completed] *)
Definition completed (self : TgVideo) : bool :=
  bool_decide (expected_size self = downloaded_size self).

(** *** The transport ([self._client]) *)

Record LocalFile : Type := mkLocalFile {
  lf_path : string;
  lf_downloaded_size : Z
}.

Record File : Type := mkFile {
  f_id : Z;
  f_size : Z;
  f_local : LocalFile
}.

Record Video : Type := mkVideo {
  vd_duration : Z;
  vd_video : File
}.

(** One entry of a chat history page: [message['id']],
    [message['media_album_id']], [message['content'].get('video')] and
    [message['content']['caption'].get('text')]. *)
Record Message : Type := mkMessage {
  m_id : Z;
  m_media_album_id : string;
  m_video : option Video;
  m_caption_text : option string
}.

(** The [updateFile] event: [event['file']['id']] and the two fields read
    from [event['file']['local']]. *)
Record FileEvent : Type := mkFileEvent {
  ev_id : Z;
  ev_path : string;
  ev_downloaded_size : Z
}.

(** Requests the client sends, named as in the source. *)
Inductive Request : Type :=
| get_chats
| get_chat_history (chat : Z) (limit : Z) (from_message_id : option Z)
| downloadFile (file : Z) (priority : Z)
| cancelDownloadFile (file : Z)
| deleteFile (file : Z)
| deleteMessages (chat : Z) (message_ids : list Z).

Definition method (req : Request) : string :=
  match req with
  | get_chats => "get_chats"
  | get_chat_history _ _ _ => "get_chat_history"
  | downloadFile _ _ => "downloadFile"
  | cancelDownloadFile _ => "cancelDownloadFile"
  | deleteFile _ => "deleteFile"
  | deleteMessages _ _ => "deleteMessages"
  end.

(** [result.update] *)
Inductive Update : Type :=
| Messages (messages : list Message)
| Ack.

(** What the transport answers once [result.wait()] returns:
    [result.error] with [result.error_info], or [result.update]. *)
Inductive Response : Type :=
| Failed (error_info : string)
| Updated (update : Update).

(** A download callback, known by its identity. *)
Definition callback : Type := nat.

(** What a subscriber saw when it was called: the fields of the video it
    was handed and the slot mapping of that moment. A ghost record. *)
Record Notification : Type := mkNotification {
  n_callback : callback;
  n_video : ref;
  n_fields : TgVideo;
  n_loading : dict Z ref
}.

Record TgClient : Type := mkTgClient {
  heap : list TgVideo;               (* the TgVideo objects allocated so far *)
  sent : list Request;               (* requests given to self._client, oldest first *)
  _download_callbacks : list callback;
  _videos : dict Z ref;
  _loading : dict Z ref;
  notified : list Notification       (* callback invocations, oldest first *)
}.

(** [TgClient.__init__]: no callback, an empty catalog, no slot taken; no
    object built and nothing sent yet. *)
Definition __init__ : TgClient :=
  mkTgClient [] [] [] [] [] [].

Definition with_heap (h : list TgVideo) (c : TgClient) : TgClient :=
  mkTgClient h (sent c) (_download_callbacks c) (_videos c) (_loading c) (notified c).
Definition with_sent (s : list Request) (c : TgClient) : TgClient :=
  mkTgClient (heap c) s (_download_callbacks c) (_videos c) (_loading c) (notified c).
Definition with_download_callbacks (l : list callback) (c : TgClient) : TgClient :=
  mkTgClient (heap c) (sent c) l (_videos c) (_loading c) (notified c).
Definition with_videos (d : dict Z ref) (c : TgClient) : TgClient :=
  mkTgClient (heap c) (sent c) (_download_callbacks c) d (_loading c) (notified c).
Definition with_loading (d : dict Z ref) (c : TgClient) : TgClient :=
  mkTgClient (heap c) (sent c) (_download_callbacks c) (_videos c) d (notified c).
Definition with_notified (l : list Notification) (c : TgClient) : TgClient :=
  mkTgClient (heap c) (sent c) (_download_callbacks c) (_videos c) (_loading c) l.

(** *** Methods: state passing with exceptions

    A method maps the client to a result and the client it leaves behind;
    what was mutated before an exception stays mutated. *)
Definition M (A : Type) : Type := TgClient -> result A * TgClient.

Definition ret {A} (a : A) : M A := fun c => (Ret a, c).
Definition raise {A} (e : exn) : M A := fun c => (Raise e, c).
Definition bind {A B} (m : M A) (k : A -> M B) : M B :=
  fun c => match m c with
           | (Ret a, c') => k a c'
           | (Raise e, c') => (Raise e, c')
           end.
Definition read : M TgClient := fun c => (Ret c, c).
Definition modify (f : TgClient -> TgClient) : M unit := fun c => (Ret tt, f c).

Notation "'let*' x ':=' m 'in' k" := (bind m (fun x => k))
  (at level 10, x name, m at level 100, k at level 200).
Notation "m ;; k" := (bind m (fun _ => k))
  (at level 100, k at level 200, right associativity).

(** [for x in l: body(x)] *)
Fixpoint for_each {A} (l : list A) (body : A -> M unit) : M unit :=
  match l with
  | [] => ret tt
  | x :: l' => body x ;; for_each l' body
  end.

(** Reading the fields of an object. *)
Definition deref (r : ref) : M TgVideo :=
  fun c => match heap c !! r with
           | Some v => (Ret v, c)
           | None => (Raise InvalidReference, c)
           end.

(** [TgVideo(...)]: a new object. *)
Definition alloc (v : TgVideo) : M ref :=
  fun c => (Ret (length (heap c)), with_heap (heap c ++ [v]) c).

Section Client.
(** The transport answers a request knowing the requests before it. *)
Variable transport : list Request -> Request -> Response.
(** A callback called on a video returns ([None]) or raises. *)
Variable subscriber : callback -> TgVideo -> option exn.

(** [self._client.call_method(...)] / [getattr(self._client, ...)(...)]
    followed by [result.wait()]. *)
Definition send (req : Request) : M Response :=
  fun c => (Ret (transport (sent c) req), with_sent (sent c ++ [req]) c).

Definition _call (req : Request) : M Update :=
  let* resp := send req in
  match resp with
  | Failed error_info => raise (TgException ("cant " +:+ method req +:+ ": " +:+ error_info))
  | Updated update => ret update
  end.

Definition _call_wrap (req : Request) : M Update :=
  let* resp := send req in
  match resp with
  | Failed error_info => raise (TgException ("cant wrap " +:+ method req +:+ ": " +:+ error_info))
  | Updated update => ret update
  end.

Definition add_download_callback (cb : callback) : M unit :=
  modify (fun c => with_download_callbacks (_download_callbacks c ++ [cb]) c).

(** [list.remove(x)]: drops the first element equal to [x]. *)
Fixpoint list_remove (l : list callback) (x : callback) : list callback :=
  match l with
  | [] => []
  | y :: l' => if decide (y = x) then l' else y :: list_remove l' x
  end.

Definition remove_download_callback (cb : callback) : M unit :=
  let* c := read in
  if bool_decide (cb ∈ _download_callbacks c)
  then modify (with_download_callbacks (list_remove (_download_callbacks c) cb))
  else ret tt.

(** The loop of [download_video]: the first [i] of the range that is not
    a key of [loading]; [None] is the [else] branch of the [for]. *)
Fixpoint first_free (loading : dict Z ref) (candidates : list Z) : option Z :=
  match candidates with
  | [] => None
  | i :: rest => if contains loading i then first_free loading rest else Some i
  end.

Definition download_video (video : ref) : M (option Z) :=
  let* c := read in
  match first_free (_loading c) (range 2 33) with
  | None => ret None
  | Some i =>
      modify (with_loading (set (_loading c) i video)) ;;
      let* v := deref video in
      _call (downloadFile (file_id v) i) ;;
      ret (Some i)
  end.

(** [v == video] on two [TgVideo] objects: the dataclass compares the
    fields. *)
Definition video_eq (c : TgClient) (v video : ref) : bool :=
  bool_decide (heap c !! v = heap c !! video).

Definition _remove_from_queue (video : ref) : M unit :=
  let* c := read in
  match find (fun kv => video_eq c (snd kv) video) (_loading c) with
  | Some (k, _) => modify (with_loading (remove (_loading c) k))
  | None => ret tt
  end.

Definition cancel_download_video (video : ref) : M unit :=
  _remove_from_queue video ;;
  let* v := deref video in
  _call (cancelDownloadFile (file_id v)) ;;
  ret tt.

Definition delete_video (video : ref) : M unit :=
  let* v := deref video in
  _call (deleteFile (file_id v)) ;;
  ret tt.

Definition delete_message (video : ref) : M unit :=
  let* v := deref video in
  let ids := [message_id v] in
  let ids := match album v with
             | Some ((_ :: _) as siblings) => ids ++ siblings
             | _ => ids
             end in
  _call (deleteMessages chat_id ids) ;;
  let* c := read in
  if contains (_videos c) (file_id v)
  then modify (with_videos (remove (_videos c) (file_id v)))
  else raise KeyError.

(** Assignments to the fields of an object. *)
Definition set_local_path (p : option string) (v : TgVideo) : TgVideo :=
  mkTgVideo (caption v) (duration v) (expected_size v) (downloaded_size v)
            (file_id v) (message_id v) (album v) p (source_group v).
Definition set_downloaded_size (n : Z) (v : TgVideo) : TgVideo :=
  mkTgVideo (caption v) (duration v) (expected_size v) n
            (file_id v) (message_id v) (album v) (local_path v) (source_group v).
Definition assign (video : ref) (f : TgVideo -> TgVideo) : M unit :=
  let* v := deref video in
  modify (fun c => with_heap (<[video := f v]> (heap c)) c).

(** [cb(video)]: the call is recorded, then the callback returns or
    raises. *)
Definition notify (video : ref) (cb : callback) : M unit :=
  let* v := deref video in
  let* c := read in
  modify (with_notified (notified c ++ [mkNotification cb video v (_loading c)])) ;;
  match subscriber cb v with
  | None => ret tt
  | Some e => raise e
  end.

Definition _update_file_handler (event : FileEvent) : M unit :=
  let* c := read in
  match get (_videos c) (ev_id event) with
  | None => ret tt
  | Some video =>
      assign video (set_local_path
        (if decide (ev_path event = "") then None else Some (ev_path event))) ;;
      assign video (set_downloaded_size (ev_downloaded_size event)) ;;
      let* v := deref video in
      (if completed v then _remove_from_queue video else ret tt) ;;
      let* c := read in
      for_each (_download_callbacks c) (notify video)
  end.

(** [_fetch_page] keeps one list per album id in [albums]; every video of
    the album holds that same list, and the messages that follow in the
    page still extend it. What [video.album] shows once the page is read
    is thus the list as the whole page leaves it: the lists are computed
    first, the videos are built from them. *)
Definition album_of (message : Message) : option string :=
  if decide (m_media_album_id message = "0") then None
  else Some (m_media_album_id message).

Definition collect_albums (messages : list Message) : dict string (list Z) :=
  fold_left
    (fun albums message =>
       match album_of message with
       | None => albums
       | Some album_id =>
           (* albums[album_id] on the defaultdict *)
           let albums :=
             if contains albums album_id then albums else set albums album_id [] in
           match m_video message with
           | Some _ => albums
           | None =>
               set albums album_id
                   (default [] (get albums album_id) ++ [m_id message])
           end
       end)
    messages [].

Definition make_video (albums : dict string (list Z))
           (message : Message) (video : Video) : TgVideo :=
  let video_file := vd_video video in
  let local_file := f_local video_file in
  {| caption := m_caption_text message;
     duration := vd_duration video;
     expected_size := f_size video_file;
     downloaded_size := lf_downloaded_size local_file;
     local_path := Some (lf_path local_file);
     file_id := f_id video_file;
     message_id := m_id message;
     album := match album_of message with
              | None => None
              | Some album_id => Some (default [] (get albums album_id))
              end;
     source_group := None |}.

Fixpoint fetch_loop (albums : dict string (list Z)) (messages : list Message)
         (videos : dict Z ref) : M (dict Z ref) :=
  match messages with
  | [] => ret videos
  | message :: rest =>
      match m_video message with
      | None => fetch_loop albums rest videos
      | Some video =>
          let* r := alloc (make_video albums message video) in
          fetch_loop albums rest (set videos (f_id (vd_video video)) r)
      end
  end.

Definition _fetch_page (limit : Z) (last_message_id : option Z) : M (dict Z ref) :=
  let* result := _call_wrap (get_chat_history chat_id limit last_message_id) in
  match result with
  | Messages messages => fetch_loop (collect_albums messages) messages []
  | Ack => raise KeyError
  end.

(** The fields of the object a page holds for a file id: those built from
    the last message of the page whose video has this id. *)
Fixpoint page_entry (albums : dict string (list Z)) (messages : list Message)
         (fid : Z) : option TgVideo :=
  match messages with
  | [] => None
  | message :: rest =>
      match page_entry albums rest fid with
      | Some v => Some v
      | None =>
          match m_video message with
          | Some video =>
              if decide (f_id (vd_video video) = fid)
              then Some (make_video albums message video)
              else None
          | None => None
          end
      end
  end.

(** the [videos] property *)
Definition videos : M (list ref) :=
  let* c := read in ret (values (_videos c)).

Definition list_videos (limit : Z) : M (list ref) :=
  let* page := _fetch_page limit None in
  modify (with_videos page) ;;
  videos.

(** the default of [list_videos]'s [limit] *)
Definition list_videos_limit : Z := 100.

Definition load_next (limit : Z) : M unit :=
  let* vs := videos in
  match vs with
  | [] => list_videos list_videos_limit ;; ret tt
  | _ :: _ =>
      match index vs (-1) with
      | Raise e => raise e
      | Ret last =>
          let* v := deref last in
          let last_message_id := message_id v in
          let* page := _fetch_page limit (Some last_message_id) in
          modify (fun c => with_videos (merge (_videos c) page) c)
      end
  end.
End Client.
End Tg.

(** ** tui.py: [ScrollableListMixin] *)

Module Tui.
Import Py.

Record ScrollableListMixin : Type := mkScrollableListMixin {
  focused_index : option Z;
  render_offset : Z
}.

(** The class attributes: no focus, offset 0. *)
Definition initial : ScrollableListMixin := mkScrollableListMixin None 0.

(** The calls that move the focus. *)
Inductive call : Type :=
| Scroll (delta : Z)   (* _scroll(delta) *)
| KeyHome              (* key_home *)
| KeyEnd.              (* key_end *)

Section Mixin.
Context {A : Type} `{EqDecision A}.
(** The two properties a widget supplies. The items are not [None]. *)
Variable items : list A.
Variable available_height : Z.

Definition len : Z := Z.of_nat (length items).

Definition focused_item (self : ScrollableListMixin) : result (option A) :=
  match focused_index self with
  | None => Ret None
  | Some i =>
      if len <=? i then Ret None
      else match index items i with
           | Ret x => Ret (Some x)
           | Raise e => Raise e
           end
  end.

Definition _check_offset (pos : Z) (self : ScrollableListMixin) : ScrollableListMixin :=
  let end_ := render_offset self + available_height - 1 in
  if end_ <? pos
  then mkScrollableListMixin (focused_index self) (pos - available_height + 1)
  else if pos <? render_offset self
       then mkScrollableListMixin (focused_index self) pos
       else self.

Definition _scroll (delta : Z) (self : ScrollableListMixin) : result ScrollableListMixin :=
  match items with
  | [] => Ret (mkScrollableListMixin None (render_offset self))
  | _ :: _ =>
      match focused_item self with
      | Raise e => Raise e
      | Ret item =>
          let absent := match item with
                        | None => true
                        | Some x => negb (bool_decide (x ∈ items))
                        end in
          if absent then Ret (mkScrollableListMixin (Some 0) 0)
          else
            match focused_index self with
            | None => Raise TypeError
            | Some i =>
                let ln := len in
                let new := (ln + i + delta) mod ln in
                let self := _check_offset new self in
                Ret (mkScrollableListMixin (Some new) (render_offset self))
            end
      end
  end.

Definition key_home (self : ScrollableListMixin) : result ScrollableListMixin :=
  match items with
  | [] => Ret self
  | _ :: _ => Ret (mkScrollableListMixin (Some 0) 0)
  end.

Definition key_end (self : ScrollableListMixin) : result ScrollableListMixin :=
  match items with
  | [] => Ret self
  | _ :: _ =>
      let self := _check_offset (len - 1) self in
      Ret (mkScrollableListMixin (Some (len - 1)) (render_offset self))
  end.

Definition key_down := _scroll 1.
Definition key_up := _scroll (-1).
Definition key_pagedown := _scroll available_height.
Definition key_pageup := _scroll (- available_height).

Definition key_escape (self : ScrollableListMixin) : ScrollableListMixin :=
  mkScrollableListMixin None (render_offset self).

(** [on_click]: [y] is [event.y], [height] is [self.size.height]. *)
Definition on_click (height y : Z) (self : ScrollableListMixin) : ScrollableListMixin :=
  if bool_decide (y = 0) || bool_decide (y = height - 1) then self
  else
    let index := y + render_offset self - 1 in
    if index <? len
    then mkScrollableListMixin (Some index) (render_offset self)
    else self.

Definition step (k : call) (self : ScrollableListMixin) : result ScrollableListMixin :=
  match k with
  | Scroll delta => _scroll delta self
  | KeyHome => key_home self
  | KeyEnd => key_end self
  end.

(** The calls one after the other; an exception ends the run. *)
Fixpoint run (ks : list call) (self : ScrollableListMixin) : result ScrollableListMixin :=
  match ks with
  | [] => Ret self
  | k :: ks' =>
      match step k self with
      | Ret self' => run ks' self'
      | Raise e => Raise e
      end
  end.
End Mixin.
End Tui.

(** ** tui.py: the widgets that use the client and the mixin *)

Module Widgets.
Import Py Tg Tui.

Section VideoList.
Variable transport : list Request -> Request -> Response.
(** [self.video_filter] and [self.available_height] *)
Variable video_filter : TgVideo -> bool.
Variable available_height : Z.

(** [VideoList.items]: the videos of the catalog the filter accepts. The
    list holds the objects themselves; [focused_item not in self.items]
    looks for an element of this very list, which [in] finds by identity. *)
Definition items (tg : TgClient) : list ref :=
  List.filter
    (fun r => match heap tg !! r with
              | Some v => video_filter v
              | None => false
              end)
    (values (_videos tg)).

(** [VideoList._delete], on the client and the scroll state of the widget. *)
Definition _delete (item : ref) (w : TgClient * ScrollableListMixin)
  : result unit * (TgClient * ScrollableListMixin) :=
  match delete_message transport item (fst w) with
  | (Raise e, tg) => (Raise e, (tg, snd w))
  | (Ret _, tg) =>
      match _scroll (items tg) available_height 0 (snd w) with
      | Ret self => (Ret tt, (tg, self))
      | Raise e => (Raise e, (tg, snd w))
      end
  end.

(** [VideoList.key_d], with the guard of [with_focused_item]. *)
Definition key_d (w : TgClient * ScrollableListMixin)
  : result unit * (TgClient * ScrollableListMixin) :=
  match focused_item (items (fst w)) (snd w) with
  | Raise e => (Raise e, w)
  | Ret None => (Ret tt, w)
  | Ret (Some item) => _delete item w
  end.
End VideoList.

(** [MyApp]: whether the main page is shown, and the focused widget. *)
Record MyApp (W : Type) : Type := mkMyApp {
  main_page_visible : bool;
  focused : option W
}.
Arguments mkMyApp {W} _ _.
Arguments main_page_visible {W} _.
Arguments focused {W} _.

Section MyApp.
Context {W : Type} `{EqDecision W}.
(** [self.focusables] *)
Variable focusables : list W.

(** [l.index(x)] for an [x] that is in [l]: the first position that holds it. *)
Fixpoint list_index (l : list W) (x : W) : Z :=
  match l with
  | [] => 0
  | y :: l' => if decide (y = x) then 0 else 1 + list_index l' x
  end.

Definition set_focus (w : W) (app : MyApp W) : MyApp W :=
  mkMyApp (main_page_visible app) (Some w).

Definition action_next_tab (app : MyApp W) : result (MyApp W) :=
  if negb (main_page_visible app) then Ret app
  else
    let first := match index focusables 0 with
                 | Ret w => Ret (set_focus w app)
                 | Raise e => Raise e
                 end in
    match focused app with
    | None => first
    | Some w =>
        if negb (bool_decide (w ∈ focusables)) then first
        else
          let i := list_index focusables w in
          let next_index := (i + 1) mod Z.of_nat (length focusables) in
          match index focusables next_index with
          | Ret w' => Ret (set_focus w' app)
          | Raise e => Raise e
          end
    end.

(** [action_next_tab] called [k] times. *)
Fixpoint tabs (k : nat) (app : MyApp W) : result (MyApp W) :=
  match k with
  | O => Ret app
  | S k' =>
      match action_next_tab app with
      | Ret app' => tabs k' app'
      | Raise e => Raise e
      end
  end.
End MyApp.

(** [VideoFilter]: the class attribute [filters] (name, then enabled,
    value and unit) and the scroll state. *)
Definition attrs : Type := bool * string * string.

Record VideoFilter : Type := mkVideoFilter {
  filters : dict string attrs;
  scroll : ScrollableListMixin
}.

Definition filters_default : dict string attrs :=
  [ ("max duration", (false, "15", "minuts"));
    ("min duration", (false, "1", "minuts"));
    ("max size", (false, "", "mb"));
    ("pinned", (false, "", "")) ].

(** [s[:-1]] *)
Fixpoint drop_last (s : string) : string :=
  match s with
  | EmptyString => EmptyString
  | String c EmptyString => EmptyString
  | String c s' => String c (drop_last s')
  end.

Section VideoFilter.
(** [self.size.height - 2] *)
Variable available_height : Z.

(** [VideoFilter.items] *)
Definition filter_items (w : VideoFilter) : list string := keys (filters w).

(** The wrapper [with_focused_item] makes: the method runs when there is a
    focused item, on [attrs = self.filters[self.focused_item]]. *)
Definition on_focused_attrs (f : attrs -> attrs) (w : VideoFilter) : result VideoFilter :=
  match focused_item (filter_items w) (scroll w) with
  | Raise e => Raise e
  | Ret None => Ret w
  | Ret (Some name) =>
      match get (filters w) name with
      | None => Raise KeyError
      | Some a => Ret (mkVideoFilter (set (filters w) name (f a)) (scroll w))
      end
  end.

Definition filter_key_space : VideoFilter -> result VideoFilter :=
  on_focused_attrs (fun a => (negb (fst (fst a)), snd (fst a), snd a)).

Definition filter_key_backspace : VideoFilter -> result VideoFilter :=
  on_focused_attrs (fun a => (fst (fst a), drop_last (snd (fst a)), snd a)).

(** [key] is [event.key], one character. *)
Definition filter_key_number (key : Ascii.ascii) : VideoFilter -> result VideoFilter :=
  on_focused_attrs
    (fun a =>
       if (4 <? String.length (snd (fst a)))%nat then a
       else (fst (fst a), snd (fst a) +:+ String key EmptyString, snd a)).

Definition filter_key_r (w : VideoFilter) : VideoFilter :=
  mkVideoFilter
    (map (fun na => (fst na, (false, EmptyString, snd (snd na)))) (filters w))
    (scroll w).

(** The keys [on_key] tells apart, with the moves of the mixin. *)
Inductive filter_key : Type :=
| KSpace
| KBackspace
| KNumber (key : Ascii.ascii)
| KReset
| KMove (k : call).

Definition filter_on_key (k : filter_key) (w : VideoFilter) : result VideoFilter :=
  match k with
  | KSpace => filter_key_space w
  | KBackspace => filter_key_backspace w
  | KNumber key => filter_key_number key w
  | KReset => Ret (filter_key_r w)
  | KMove m =>
      match step (filter_items w) available_height m (scroll w) with
      | Ret self => Ret (mkVideoFilter (filters w) self)
      | Raise e => Raise e
      end
  end.

Fixpoint filter_on_keys (ks : list filter_key) (w : VideoFilter) : result VideoFilter :=
  match ks with
  | [] => Ret w
  | k :: ks' =>
      match filter_on_key k w with
      | Ret w' => filter_on_keys ks' w'
      | Raise e => Raise e
      end
  end.
End VideoFilter.
End Widgets.

(** * Vocabulary of the statements *)

Import Py Tg.

(** The fields of a video once [_update_file_handler] has assigned
    [local_path] and [downloaded_size] from the event. *)
Definition updated (event : FileEvent) (v : TgVideo) : TgVideo :=
  set_downloaded_size (ev_downloaded_size event)
    (set_local_path
       (if decide (ev_path event = "") then None else Some (ev_path event)) v).

(** The client once the assignments are done and, for a completed video,
    its slot is looked for; the callbacks are not called yet. *)
Definition before_notifying (event : FileEvent) (video : ref) (v : TgVideo)
           (c : TgClient) : TgClient :=
  let c1 := with_heap (<[video := updated event v]> (heap c)) c in
  if completed (updated event v) then snd (_remove_from_queue video c1) else c1.

(** The records left by calling the callbacks [cbs], in this order. *)
Definition calls (cbs : list callback) (video : ref) (v : TgVideo)
           (loading : dict Z ref) : list Notification :=
  map (fun cb => mkNotification cb video v loading) cbs.





(** Operations on the slot mapping. *)
Inductive slot_op : Type :=
| StartDownload (video : ref)    (* download_video *)
| CancelDownload (video : ref)   (* cancel_download_video *)
| Release (video : ref).         (* _remove_from_queue *)

(** The client an operation leaves behind, whether or not it raised. *)
Definition apply_op (transport : list Request -> Request -> Response)
           (o : slot_op) (c : TgClient) : TgClient :=
  match o with
  | StartDownload video => snd (download_video transport video c)
  | CancelDownload video => snd (cancel_download_video transport video c)
  | Release video => snd (_remove_from_queue video c)
  end.

Definition apply_ops (transport : list Request -> Request -> Response)
           (ops : list slot_op) (c : TgClient) : TgClient :=
  fold_left (fun c o => apply_op transport o c) ops c.

(** Each slot number is bound to at most one item. *)
Definition one_item_per_slot (loading : dict Z ref) : Prop :=
  forall k r r', (k, r) ∈ loading -> (k, r') ∈ loading -> r = r'.

(** Each item occupies at most one slot. *)
Definition one_slot_per_item (loading : dict Z ref) : Prop :=
  forall k k' r, (k, r) ∈ loading -> (k', r) ∈ loading -> k = k'.

(** The slot numbers in use are distinct numbers of 2..32. *)
Definition slots_in_range (loading : dict Z ref) : Prop :=
  NoDup (keys loading) /\ Forall (fun k => 2 <= k <= 32) (keys loading).

(** [download_video] for each video of a list in turn, with the results. *)
Fixpoint download_all (transport : list Request -> Request -> Response)
         (videos : list ref) (c : TgClient) : list (result (option Z)) * TgClient :=
  match videos with
  | [] => ([], c)
  | video :: rest =>
      let (r, c1) := download_video transport video c in
      let (rs, c2) := download_all transport rest c1 in
      (r :: rs, c2)
  end.

(** The outcome of a reservation of slot [i]: the slot, or the error of the
    transport. *)
Definition reserved (r : result (option Z)) (i : Z) : Prop :=
  r = Ret (Some i) \/ exists msg, r = Raise (TgException msg).

(** The transport refuses no download request. *)
Definition accepts_downloads (transport : list Request -> Request -> Response) : Prop :=
  forall history file priority,
    exists u, transport history (downloadFile file priority) = Updated u.

(** The fields the catalog shows for a file id. *)
Definition catalog_fields (c : TgClient) (fid : Z) : option TgVideo :=
  match get (_videos c) fid with
  | Some r => heap c !! r
  | None => None
  end.

(** The two ways to fetch a page again. *)
Inductive refetch : Type :=
| ListVideos (limit : Z)   (* list_videos *)
| LoadNext (limit : Z).    (* load_next *)

Definition apply_refetch (transport : list Request -> Request -> Response)
           (f : refetch) (c : TgClient) : TgClient :=
  match f with
  | ListVideos limit => snd (list_videos transport limit c)
  | LoadNext limit => snd (load_next transport limit c)
  end.

(** The message ids an album collects from a page: those of its messages
    that carry no video, in the order of the page. *)
Fixpoint siblings (album_id : string) (messages : list Message) : list Z :=
  match messages with
  | [] => []
  | message :: rest =>
      if decide (m_media_album_id message = album_id)
      then match m_video message with
           | None => m_id message :: siblings album_id rest
           | Some _ => siblings album_id rest
           end
      else siblings album_id rest
  end.

(** No slot holds an object with the fields [v]. *)
Definition no_slot_holds (c : TgClient) (v : TgVideo) : Prop :=
  Forall (fun kv => heap c !! snd kv <> Some v) (_loading c).

(** Every slot number of 2..32 is bound. *)
Definition all_slots_taken (loading : dict Z ref) : Prop :=
  forall j, 2 <= j <= 32 -> contains loading j = true.

(** No filter value is longer than five characters. *)
Definition values_short (filters : dict string Widgets.attrs) : Prop :=
  Forall (fun na => (String.length (snd (fst (snd na))) <= 5)%nat) filters.

(** The focus, when there is one, is not negative. *)
Definition focus_not_negative (self : Tui.ScrollableListMixin) : Prop :=
  match Tui.focused_index self with
  | Some i => 0 <= i
  | None => True
  end.

(** The focus, when there is one, is an index of the list and is shown by
    the viewport: [n] items, [h] rows. *)
Definition in_window (n h : Z) (self : Tui.ScrollableListMixin) : Prop :=
  0 <= Tui.render_offset self /\
  match Tui.focused_index self with
  | Some i =>
      Tui.render_offset self <= i <= Tui.render_offset self + h - 1 /\
      0 <= i <= n - 1
  | None => True
  end.

(** ** Sample data for the examples *)

Definition sample_video : TgVideo :=
  {| caption := Some "holiday"; duration := 95; expected_size := 1000;
     downloaded_size := 500; file_id := 7; message_id := 70;
     album := Some [71; 73]; local_path := Some "/tmp/7.mp4";
     source_group := None |}.

(** A catalog with one video and no download yet, two callbacks subscribed. *)
Definition sample_client : TgClient :=
  {| heap := [sample_video]; sent := []; _download_callbacks := [0%nat; 1%nat];
     _videos := [(7, 0%nat)]; _loading := []; notified := [] |}.

(** The same catalog with the video bound to slot 2. *)
Definition tracked_client : TgClient :=
  with_loading [(2, 0%nat)] sample_client.

(** 31 videos to download. *)
Definition many_videos : list TgVideo :=
  map (fun k => mkTgVideo None 60 1000 0 (Z.of_nat k) (100 + Z.of_nat k)
                 None None None) (seq 0 31).

Definition many_client : TgClient :=
  {| heap := many_videos; sent := []; _download_callbacks := [];
     _videos := map (fun k => (Z.of_nat k, k)) (seq 0 31); _loading := [];
     notified := [] |}.

(** The page the remote side holds for the sample video: nothing downloaded. *)
Definition sample_page : list Message :=
  [ mkMessage 70 "5"
      (Some (mkVideo 95 (mkFile 7 1000 (mkLocalFile "" 0)))) (Some "holiday");
    mkMessage 71 "5" None None;
    mkMessage 72 "0" None None;
    mkMessage 73 "5" None None ].

(** Transports: one that refuses every request, one that accepts every
    request and answers a history request with the sample page. *)
Definition refusing : list Request -> Request -> Response :=
  fun _ _ => Failed "timeout".

Definition accepting : list Request -> Request -> Response :=
  fun _ req =>
    match req with
    | get_chat_history _ _ _ => Updated (Messages sample_page)
    | _ => Updated Ack
    end.


(** Subscribers: callback 0 raises, the others return. *)
Definition first_raises : callback -> TgVideo -> option exn :=
  fun cb _ => if decide (cb = 0%nat) then Some (SubscriberError "boom") else None.

(** Subscribers that never raise. *)
Definition quiet : callback -> TgVideo -> option exn := fun _ _ => None.

(** The catalog after a refetch while a download runs: slot 2 still holds
    the object built first, the catalog holds the object built last. *)
Definition refetched_client : TgClient :=
  {| heap := [sample_video; set_downloaded_size 0 sample_video]; sent := [];
     _download_callbacks := [0%nat; 1%nat];
     _videos := [(7, 1%nat)]; _loading := [(2, 0%nat)]; notified := [] |}.

(** Two objects with the same fields, the first one in slot 2. *)
Definition twin_client : TgClient :=
  {| heap := [sample_video; sample_video]; sent := [];
     _download_callbacks := []; _videos := [(7, 1%nat)];
     _loading := [(2, 0%nat)]; notified := [] |}.

(** A catalog of two videos; the remote page only knows the second. *)
Definition older_video : TgVideo :=
  {| caption := None; duration := 10; expected_size := 300;
     downloaded_size := 300; file_id := 3; message_id := 90;
     album := None; local_path := Some "/tmp/3.mp4"; source_group := None |}.

Definition older_client : TgClient :=
  {| heap := [older_video; sample_video]; sent := [];
     _download_callbacks := []; _videos := [(3, 0%nat); (7, 1%nat)];
     _loading := []; notified := [] |}.

(** All 31 slots taken, by the videos 0..30 in this order. *)
Definition full_client : TgClient :=
  snd (download_all accepting (seq 0 31) many_client).

(** The filter page as it starts, the first filter focused. *)
Definition sample_filter : Widgets.VideoFilter :=
  Widgets.mkVideoFilter Widgets.filters_default
    (Tui.mkScrollableListMixin (Some 0) 0).

(** * Properties *)

(** ** Dictionaries *)

Section DictFacts.
Context {K V : Type} `{EqDecision K}.
Implicit Types (d : dict K V) (k : K) (v : V).

Lemma contains_keys d k : contains d k = true <-> k ∈ keys d.
Proof.
  unfold contains. induction d as [|[k' v'] d IH]; simpl.
  - split; [discriminate | intros Hin; inversion Hin].
  - destruct (decide (k' = k)) as [->|Hne].
    + split; [intros _; left | reflexivity].
    + rewrite IH. split; [intros Hin; now right|].
      intros Hin. inversion Hin; subst; [congruence | assumption].
Qed.

Lemma contains_false_keys d k : contains d k = false <-> k ∉ keys d.
Proof.
  rewrite <- contains_keys. destruct (contains d k); split; congruence.
Qed.

Lemma get_None_keys d k : get d k = None <-> k ∉ keys d.
Proof.
  rewrite <- contains_false_keys. unfold contains.
  destruct (get d k); split; congruence.
Qed.

Lemma get_elem_of d k v : get d k = Some v -> (k, v) ∈ d.
Proof.
  induction d as [|[k' v'] d IH]; simpl; [discriminate|].
  destruct (decide (k' = k)) as [->|Hne].
  - intros [= ->]. left.
  - intros Hget. right. auto.
Qed.

Lemma elem_of_get d k v : NoDup (keys d) -> (k, v) ∈ d -> get d k = Some v.
Proof.
  induction d as [|[k' v'] d IH]; simpl; intros Hnd Hin.
  - inversion Hin.
  - apply list.NoDup_cons in Hnd as [Hk' Hnd].
    destruct (decide (k' = k)) as [->|Hne].
    + apply elem_of_cons in Hin as [[= <-]|Hin]; [reflexivity|].
      exfalso. apply Hk'. apply list_elem_of_fmap. now exists (k, v).
    + apply elem_of_cons in Hin as [[= <- <-]|Hin]; [congruence | auto].
Qed.

Lemma get_set_eq d k v : get (set d k v) k = Some v.
Proof.
  induction d as [|[k' v'] d IH]; simpl.
  - now rewrite decide_True.
  - destruct (decide (k' = k)) as [->|Hne]; simpl.
    + now rewrite decide_True.
    + now rewrite decide_False.
Qed.

Lemma get_set_ne d k k' v : k <> k' -> get (set d k v) k' = get d k'.
Proof.
  intros Hne. induction d as [|[k0 v0] d IH]; simpl.
  - now rewrite decide_False.
  - destruct (decide (k0 = k)) as [->|Hne0]; simpl.
    + now rewrite !decide_False.
    + now rewrite IH.
Qed.

Lemma set_fresh d k v : k ∉ keys d -> set d k v = d ++ [(k, v)].
Proof.
  induction d as [|[k' v'] d IH]; simpl; intros Hk; [reflexivity|].
  apply not_elem_of_cons in Hk as [Hne Hk].
  rewrite decide_False by congruence. now rewrite IH.
Qed.

Lemma keys_set_present d k v : k ∈ keys d -> keys (set d k v) = keys d.
Proof.
  induction d as [|[k' v'] d IH]; simpl; intros Hk; [inversion Hk|].
  destruct (decide (k' = k)) as [->|Hne]; simpl; [reflexivity|].
  apply elem_of_cons in Hk as [->|Hk]; [congruence|]. now rewrite IH.
Qed.

Lemma keys_set d k v :
  keys (set d k v) = if contains d k then keys d else keys d ++ [k].
Proof.
  destruct (contains d k) eqn:E.
  - apply keys_set_present. now apply contains_keys.
  - apply contains_false_keys in E. rewrite set_fresh by assumption.
    unfold keys. now rewrite map_app.
Qed.

Lemma NoDup_keys_set d k v : NoDup (keys d) -> NoDup (keys (set d k v)).
Proof.
  intros Hnd. rewrite keys_set. destruct (contains d k) eqn:E; [assumption|].
  apply contains_false_keys in E. apply list.NoDup_app. repeat split; try assumption.
  - intros x Hx Hx'. apply list_elem_of_singleton in Hx'. now subst.
  - apply NoDup_singleton.
Qed.

Lemma keys_remove_subseteq d k : keys (remove d k) ⊆ keys d.
Proof.
  induction d as [|[k' v'] d IH]; simpl; [reflexivity|].
  destruct (decide (k' = k)); simpl.
  - intros x Hx. now right.
  - intros x Hx. apply elem_of_cons in Hx as [->|Hx]; [left | right; auto].
Qed.

Lemma NoDup_keys_remove d k : NoDup (keys d) -> NoDup (keys (remove d k)).
Proof.
  induction d as [|[k' v'] d IH]; simpl; intros Hnd; [assumption|].
  apply list.NoDup_cons in Hnd as [Hk' Hnd].
  destruct (decide (k' = k)); simpl; [assumption|].
  apply list.NoDup_cons. split; [|auto].
  intros Hin. apply Hk'. now apply (keys_remove_subseteq d k).
Qed.

Lemma get_remove_eq d k : NoDup (keys d) -> get (remove d k) k = None.
Proof.
  induction d as [|[k' v'] d IH]; simpl; intros Hnd; [reflexivity|].
  apply list.NoDup_cons in Hnd as [Hk' Hnd].
  destruct (decide (k' = k)) as [->|Hne]; simpl.
  - now apply get_None_keys.
  - rewrite decide_False by assumption. auto.
Qed.

Lemma get_remove_ne d k k' : k <> k' -> get (remove d k) k' = get d k'.
Proof.
  intros Hne. induction d as [|[k0 v0] d IH]; simpl; [reflexivity|].
  destruct (decide (k0 = k)) as [->|Hne0]; simpl.
  - now rewrite decide_False.
  - now rewrite IH.
Qed.

Lemma length_remove d k :
  k ∈ keys d -> S (length (remove d k)) = length d.
Proof.
  induction d as [|[k' v'] d IH]; simpl; intros Hk; [inversion Hk|].
  destruct (decide (k' = k)) as [->|Hne]; simpl; [reflexivity|].
  apply elem_of_cons in Hk as [->|Hk]; [congruence|]. now rewrite IH.
Qed.
Lemma get_merge (a b : dict K V) k :
  NoDup (keys b) ->
  get (merge a b) k = match get b k with Some v => Some v | None => get a k end.
Proof.
  unfold merge. revert a. induction b as [|[k0 v0] b IH]; intros a Hnd; cbn.
  - reflexivity.
  - apply list.NoDup_cons in Hnd as [Hk0 Hnd]. rewrite IH by assumption.
    destruct (decide (k0 = k)) as [->|Hne].
    + apply get_None_keys in Hk0. cbn in Hk0. rewrite Hk0. apply get_set_eq.
    + now rewrite get_set_ne.
Qed.
End DictFacts.

(** ** The slot scan of [download_video] *)

Lemma range_2_33 :
  range 2 33 = [2; 3; 4; 5; 6; 7; 8; 9; 10; 11; 12; 13; 14; 15; 16; 17; 18; 19;
                20; 21; 22; 23; 24; 25; 26; 27; 28; 29; 30; 31; 32].
Proof. reflexivity. Qed.

Lemma first_free_Some loading candidates i :
  first_free loading candidates = Some i ->
  exists before after,
    candidates = before ++ i :: after /\
    contains loading i = false /\
    Forall (fun j => contains loading j = true) before.
Proof.
  induction candidates as [|j rest IH]; simpl; [discriminate|].
  destruct (contains loading j) eqn:E.
  - intros Hf. destruct (IH Hf) as (before & after & -> & Hi & Hb).
    exists (j :: before), after. repeat split; [assumption|]. now constructor.
  - intros [= <-]. exists [], rest. repeat split; [assumption | constructor].
Qed.

Lemma first_free_None loading candidates :
  first_free loading candidates = None <->
  Forall (fun j => contains loading j = true) candidates.
Proof.
  induction candidates as [|j rest IH]; simpl.
  - split; [constructor | reflexivity].
  - destruct (contains loading j) eqn:E.
    + rewrite IH. split; [now constructor | intros Hf; now inversion Hf].
    + split; [discriminate | intros Hf; inversion Hf; congruence].
Qed.

Lemma first_free_app loading before i after :
  Forall (fun j => contains loading j = true) before ->
  contains loading i = false ->
  first_free loading (before ++ i :: after) = Some i.
Proof.
  intros Hb Hi. induction Hb as [|j before Hj Hb IH]; simpl.
  - now rewrite Hi.
  - now rewrite Hj.
Qed.

(** *** [range] *)

Lemma range_nil lo hi : hi <= lo -> range lo hi = [].
Proof.
  intros Hle. unfold range. now replace (Z.to_nat (hi - lo)) with 0%nat by lia.
Qed.

Lemma range_cons lo hi : lo < hi -> range lo hi = lo :: range (lo + 1) hi.
Proof.
  intros Hlt. unfold range.
  replace (Z.to_nat (hi - lo)) with (S (Z.to_nat (hi - (lo + 1)))) by lia.
  cbn [seq map]. f_equal; [lia|].
  rewrite <- seq_shift, map_map. apply map_ext. intros k. lia.
Qed.

Lemma elem_of_range lo hi i : i ∈ range lo hi <-> lo <= i < hi.
Proof.
  unfold range. rewrite list_elem_of_In, in_map_iff. split.
  - intros (k & <- & Hk). apply in_seq in Hk. lia.
  - intros Hi. exists (Z.to_nat (i - lo)). split; [lia|]. apply in_seq. lia.
Qed.

Lemma range_split (n : nat) :
  forall lo hi, lo + Z.of_nat n <= hi ->
  range lo hi = range lo (lo + Z.of_nat n) ++ range (lo + Z.of_nat n) hi.
Proof.
  induction n as [|n IH]; intros lo hi Hle.
  - rewrite Z.add_0_r, (range_nil lo lo) by lia. reflexivity.
  - rewrite (range_cons lo hi), (range_cons lo (lo + Z.of_nat (S n))) by lia.
    rewrite (IH (lo + 1) hi) by lia.
    replace (lo + 1 + Z.of_nat n) with (lo + Z.of_nat (S n)) by lia. reflexivity.
Qed.

Lemma range_snoc lo hi : lo <= hi -> range lo (hi + 1) = range lo hi ++ [hi].
Proof.
  intros Hle. rewrite (range_split (Z.to_nat (hi - lo)) lo (hi + 1)) by lia.
  replace (lo + Z.of_nat (Z.to_nat (hi - lo))) with hi by lia.
  rewrite (range_cons hi (hi + 1)), (range_nil (hi + 1)) by lia. reflexivity.
Qed.

Lemma length_range lo hi : lo <= hi -> Z.of_nat (length (range lo hi)) = hi - lo.
Proof. intros Hle. unfold range. rewrite length_map, length_seq. lia. Qed.

(** The scan returns the least free number of the range. *)
Lemma first_free_range_Some loading (n : nat) :
  forall lo i,
  first_free loading (range lo (lo + Z.of_nat n)) = Some i ->
  lo <= i < lo + Z.of_nat n /\
  contains loading i = false /\
  forall j, lo <= j < i -> contains loading j = true.
Proof.
  induction n as [|n IH]; intros lo i.
  - rewrite range_nil by lia. discriminate.
  - rewrite range_cons by lia. cbn [first_free].
    replace (lo + Z.of_nat (S n)) with (lo + 1 + Z.of_nat n) by lia.
    destruct (contains loading lo) eqn:Hlo.
    + intros Hf. destruct (IH (lo + 1) i Hf) as (Hi & Hfree & Hbelow).
      split; [lia|]. split; [assumption|].
      intros j Hj. destruct (decide (j = lo)) as [->|Hne]; [assumption|].
      apply Hbelow. lia.
    + intros [= <-]. split; [lia|]. split; [assumption|]. intros j Hj. lia.
Qed.

Lemma first_free_range_least loading lo hi i :
  lo <= i < hi ->
  contains loading i = false ->
  (forall j, lo <= j < i -> contains loading j = true) ->
  first_free loading (range lo hi) = Some i.
Proof.
  intros Hi Hfree Hbelow.
  rewrite (range_split (Z.to_nat (i - lo)) lo hi) by lia.
  replace (lo + Z.of_nat (Z.to_nat (i - lo))) with i by lia.
  rewrite (range_cons i hi) by lia.
  apply first_free_app; [|assumption].
  apply list.Forall_forall. intros j Hj. apply elem_of_range in Hj. now apply Hbelow.
Qed.

Lemma first_free_range_None loading lo hi :
  first_free loading (range lo hi) = None <->
  forall j, lo <= j < hi -> contains loading j = true.
Proof.
  rewrite first_free_None, list.Forall_forall. split.
  - intros H j Hj. apply H. now apply elem_of_range.
  - intros H j Hj. apply H. now apply elem_of_range.
Qed.

(** Where a list splits at its first element outside [P]. *)
Lemma first_outside_unique {A} (P : A -> Prop) (l1 l2 r1 r2 : list A) (x1 x2 : A) :
  l1 ++ x1 :: r1 = l2 ++ x2 :: r2 ->
  Forall P l1 -> ~ P x1 -> Forall P l2 -> ~ P x2 ->
  l1 = l2 /\ x1 = x2 /\ r1 = r2.
Proof.
  intros Heq H1. revert l2 Heq.
  induction H1 as [|y l1 Hy H1 IH]; intros l2 Heq Hx1 H2 Hx2.
  - destruct l2 as [|z l2]; cbn in Heq.
    + injection Heq as -> ->. auto.
    + injection Heq as -> _. inversion H2; subst. contradiction.
  - destruct l2 as [|z l2]; cbn in Heq.
    + injection Heq as -> _. contradiction.
    + injection Heq as -> Heq. inversion H2; subst.
      destruct (IH l2 Heq Hx1) as (-> & -> & ->); auto.
Qed.

Section TgFacts.
Variable transport : list Request -> Request -> Response.
Variable subscriber : callback -> TgVideo -> option exn.

(** What [download_video] does once a free slot [i] is found. *)
Lemma download_video_reserved (video : ref) (v : TgVideo) (c : TgClient) (i : Z) :
  heap c !! video = Some v ->
  first_free (_loading c) (range 2 33) = Some i ->
  download_video transport video c =
    let c' := with_sent (sent c ++ [downloadFile (file_id v) i])
                (with_loading (set (_loading c) i video) c) in
    match transport (sent c) (downloadFile (file_id v) i) with
    | Failed error_info =>
        (Raise (TgException ("cant downloadFile: " +:+ error_info)), c')
    | Updated _ => (Ret (Some i), c')
    end.
Proof.
  intros Hv Hi. unfold download_video, bind, read. rewrite Hi.
  unfold modify, deref, _call, send, bind. cbn. rewrite Hv. cbn.
  destruct (transport (sent c) (downloadFile (file_id v) i)); reflexivity.
Qed.

(** C1, as the code has it: when the remote download call fails after a slot
    was reserved, [download_video] raises a [TgException] that carries the
    transport's error information, and the reserved slot stays bound to the
    item: the slot mapping afterwards is the mapping before the call with the
    new binding added, not the mapping before the call. *)
Theorem download_video_failure_keeps_slot
    (video : ref) (v : TgVideo) (c : TgClient) (i : Z) (error_info : string) :
  heap c !! video = Some v ->
  first_free (_loading c) (range 2 33) = Some i ->
  transport (sent c) (downloadFile (file_id v) i) = Failed error_info ->
  exists c',
    download_video transport video c =
      (Raise (TgException ("cant downloadFile: " +:+ error_info)), c') /\
    _loading c' = set (_loading c) i video /\
    get (_loading c') i = Some video /\
    get (_loading c) i = None /\
    _videos c' = _videos c /\ heap c' = heap c.
Proof.
  intros Hv Hi Hfail.
  rewrite (download_video_reserved video v c i Hv Hi), Hfail. cbn.
  eexists. split; [reflexivity|]. cbn. repeat split.
  - apply get_set_eq.
  - apply first_free_Some in Hi as (_ & _ & _ & Hc & _).
    unfold contains in Hc. now destruct (get (_loading c) i).
Qed.

(** C10: removing a callback that is not registered changes nothing, and
    removing a registered one drops its first occurrence only: what was
    subscribed before it and everything after it, later occurrences of the
    same callback included, stays registered in the same order. *)
Theorem remove_download_callback_first_occurrence
    (cb : callback) (before after : list callback) (c : TgClient) :
  cb ∉ before ->
  remove_download_callback cb (with_download_callbacks before c)
    = (Ret tt, with_download_callbacks before c) /\
  remove_download_callback cb (with_download_callbacks (before ++ cb :: after) c)
    = (Ret tt, with_download_callbacks (before ++ after) c).
Proof.
  intros Hnot.
  assert (Hrm : forall rest, list_remove (before ++ cb :: rest) cb = before ++ rest).
  { intros rest. induction before as [|x before IH]; simpl.
    - now rewrite decide_True.
    - apply not_elem_of_cons in Hnot as [Hne Hnot].
      rewrite decide_False by congruence. now rewrite IH. }
  unfold remove_download_callback, bind, read, modify, ret. cbn. split.
  - now rewrite bool_decide_eq_false_2.
  - rewrite bool_decide_eq_true_2 by (apply elem_of_app; right; left).
    now rewrite Hrm.
Qed.
(** *** Reading a page *)

Lemma index_last {A} (l : list A) (x : A) : index (l ++ [x]) (-1) = Ret x.
Proof.
  unfold index. rewrite length_app. cbn [length].
  replace (-1 <? 0) with true by reflexivity.
  replace (Z.of_nat (length l + 1) + -1) with (Z.of_nat (length l)) by lia.
  replace (0 <=? Z.of_nat (length l)) with true by (symmetry; apply Z.leb_le; lia).
  replace (Z.of_nat (length l) <? Z.of_nat (length l + 1)) with true
    by (symmetry; apply Z.ltb_lt; lia).
  cbn. rewrite Nat2Z.id.
  rewrite lookup_app_r by lia. now rewrite Nat.sub_diag.
Qed.

(** [fetch_loop] allocates the videos of the page and changes nothing else;
    for each file id the page holds the object built from the last message
    that carries it. *)
Lemma fetch_loop_spec albums (messages : list Message) :
  forall (videos : dict Z ref) (c : TgClient),
  exists (page : dict Z ref) (news : list TgVideo),
    fetch_loop albums messages videos c
      = (Ret page, with_heap (heap c ++ news) c) /\
    (NoDup (keys videos) -> NoDup (keys page)) /\
    forall fid,
      match page_entry albums messages fid with
      | Some v => exists r, get page fid = Some r /\
                            (length (heap c) <= r)%nat /\
                            (heap c ++ news) !! r = Some v
      | None => get page fid = get videos fid
      end.
Proof.
  induction messages as [|message rest IH]; intros videos c; simpl.
  - exists videos, []. rewrite app_nil_r. destruct c. repeat split; auto.
  - destruct (m_video message) as [video|] eqn:Hvideo.
    + unfold bind, alloc.
      set (v0 := make_video albums message video).
      set (c1 := with_heap (heap c ++ [v0]) c).
      destruct (IH (set videos (f_id (vd_video video)) (length (heap c))) c1)
        as (page & news & Hrun & Hnd & Hpage).
      exists page, (v0 :: news). rewrite Hrun. split; [|split].
      * unfold c1, with_heap. cbn. now rewrite <- app_assoc.
      * intros Hv. apply Hnd. now apply NoDup_keys_set.
      * intros fid. specialize (Hpage fid).
        replace (heap c ++ v0 :: news) with (heap c1 ++ news)
          by (unfold c1; cbn; now rewrite <- app_assoc).
        destruct (page_entry albums rest fid) as [v|].
        -- destruct Hpage as (r & Hget & Hr & Hlook).
           exists r. repeat split; try assumption.
           unfold c1 in Hr. cbn in Hr. rewrite length_app in Hr. cbn in Hr. lia.
        -- destruct (decide (f_id (vd_video video) = fid)) as [<-|Hne].
           ++ exists (length (heap c)). rewrite Hpage, get_set_eq.
              repeat split; [lia|].
              unfold c1. cbn. rewrite <- app_assoc.
              rewrite lookup_app_r by lia. now rewrite Nat.sub_diag.
           ++ now rewrite Hpage, get_set_ne.
    + destruct (IH videos c) as (page & news & Hrun & Hnd & Hpage).
      exists page, news. repeat split; try assumption.
      intros fid. specialize (Hpage fid).
      destruct (page_entry albums rest fid); assumption.
Qed.

Lemma _fetch_page_messages limit last_message_id (c : TgClient) messages :
  transport (sent c) (get_chat_history chat_id limit last_message_id)
    = Updated (Messages messages) ->
  exists (page : dict Z ref) (news : list TgVideo),
    _fetch_page transport limit last_message_id c
      = (Ret page,
         with_heap (heap c ++ news)
           (with_sent (sent c ++ [get_chat_history chat_id limit last_message_id]) c)) /\
    NoDup (keys page) /\
    forall fid,
      match page_entry (collect_albums messages) messages fid with
      | Some v => exists r, get page fid = Some r /\
                            (length (heap c) <= r)%nat /\
                            (heap c ++ news) !! r = Some v
      | None => get page fid = None
      end.
Proof.
  intros Hresp. unfold _fetch_page, _call_wrap, send, bind. rewrite Hresp. cbn.
  destruct (fetch_loop_spec (collect_albums messages) messages []
              (with_sent (sent c ++ [get_chat_history chat_id limit last_message_id]) c))
    as (page & news & Hrun & Hnd & Hpage).
  exists page, news. split; [exact Hrun|]. split; [apply Hnd; constructor|].
  exact Hpage.
Qed.

(** Whatever the transport answers, [_fetch_page] sends one request. *)
Lemma _fetch_page_sent limit last_message_id (c : TgClient) :
  sent (snd (_fetch_page transport limit last_message_id c))
    = sent c ++ [get_chat_history chat_id limit last_message_id] /\
  _loading (snd (_fetch_page transport limit last_message_id c)) = _loading c /\
  _videos (snd (_fetch_page transport limit last_message_id c)) = _videos c.
Proof.
  unfold _fetch_page, _call_wrap, send, bind.
  destruct (transport (sent c) (get_chat_history chat_id limit last_message_id))
    as [info|[messages|]]; cbn; auto.
  destruct (fetch_loop_spec (collect_albums messages) messages []
              (with_sent (sent c ++ [get_chat_history chat_id limit last_message_id]) c))
    as (page & news & Hrun & _). rewrite Hrun. cbn. auto.
Qed.

Lemma list_videos_sent limit (c : TgClient) :
  sent (snd (list_videos transport limit c))
    = sent c ++ [get_chat_history chat_id limit None].
Proof.
  unfold list_videos, bind.
  pose proof (_fetch_page_sent limit None c) as (Hs & _).
  destruct (_fetch_page transport limit None c) as [[page|e] c']; cbn in *; exact Hs.
Qed.

(** C9: on an empty catalog, whatever objects the client holds (none at
    all for a new client), [load_next] is [list_videos()] with its default
    limit of 100, whatever [limit] it was given: one history request with
    limit 100 and no anchor. On a catalog that is not empty the request
    carries [limit] and the message id of the last loaded video. *)
Theorem load_next_limit_only_after_first_page
    (limit : Z) (c : TgClient) (entries : dict Z ref) (fid : Z) (last : ref)
    (v : TgVideo) :
  (let c0 := with_videos [] c in
   load_next transport limit c0 = (list_videos transport 100 ;; ret tt) c0 /\
   sent (snd (load_next transport limit c0))
     = sent c ++ [get_chat_history chat_id 100 None] /\
   forall limit', load_next transport limit' c0 = load_next transport limit c0) /\
  (heap c !! last = Some v ->
   let c1 := with_videos (entries ++ [(fid, last)]) c in
   sent (snd (load_next transport limit c1))
     = sent c ++ [get_chat_history chat_id limit (Some (message_id v))]).
Proof.
  split.
  - cbn zeta. split; [reflexivity|]. split; [|reflexivity].
    change (load_next transport limit (with_videos [] c))
      with ((list_videos transport 100 ;; ret tt) (with_videos [] c)).
    unfold bind at 1.
    pose proof (list_videos_sent 100 (with_videos [] c)) as Hs.
    destruct (list_videos transport 100 (with_videos [] c)) as [[vs|e] c']; exact Hs.
  - intros Hlast. cbn zeta. unfold load_next, videos, bind, read, ret. cbn.
    unfold values. rewrite map_app. cbn [map snd].
    destruct (map snd entries ++ [last]) as [|r0 rs] eqn:Hvs.
    { destruct (map snd entries); discriminate. }
    rewrite <- Hvs, index_last. unfold deref, raise. cbn. rewrite Hlast.
    set (c1 := with_videos (entries ++ [(fid, last)]) c).
    pose proof (_fetch_page_sent limit (Some (message_id v)) c1) as (Hs & _).
    fold c1.
    destruct (_fetch_page transport limit (Some (message_id v)) c1) as [[page|e] c'];
      cbn in *; exact Hs.
Qed.

(** C7: [delete_message] sends one [deleteMessages] request, for the
    message id of the video followed by the ids of its album siblings. When
    the request fails a [TgException] is raised and the catalog is left as it
    was; when it succeeds the entry of the video, and no other, leaves the
    catalog. *)
Theorem delete_message_one_call_then_remove
    (video : ref) (v : TgVideo) (c : TgClient) :
  heap c !! video = Some v ->
  get (_videos c) (file_id v) = Some video ->
  NoDup (keys (_videos c)) ->
  let ids := message_id v :: default [] (album v) in
  let request := deleteMessages chat_id ids in
  let c' := snd (delete_message transport video c) in
  sent c' = sent c ++ [request] /\
  match transport (sent c) request with
  | Failed error_info =>
      fst (delete_message transport video c)
        = Raise (TgException ("cant deleteMessages: " +:+ error_info)) /\
      _videos c' = _videos c
  | Updated _ =>
      fst (delete_message transport video c) = Ret tt /\
      _videos c' = remove (_videos c) (file_id v) /\
      S (length (_videos c')) = length (_videos c) /\
      get (_videos c') (file_id v) = None /\
      forall fid, fid <> file_id v -> get (_videos c') fid = get (_videos c) fid
  end.
Proof.
  intros Hv Hcat Hnd ids request c'.
  assert (Hids : (let ids0 := [message_id v] in
                  match album v with
                  | Some ((_ :: _) as siblings) => ids0 ++ siblings
                  | _ => ids0
                  end) = ids).
  { unfold ids. destruct (album v) as [[|x siblings]|]; reflexivity. }
  assert (Hin : contains (_videos c) (file_id v) = true).
  { unfold contains. now rewrite Hcat. }
  unfold c', delete_message, bind, deref. rewrite Hv. cbn zeta in Hids.
  rewrite Hids. fold request. unfold _call, send, bind. cbn.
  destruct (transport (sent c) request) as [info|u]; cbn.
  - auto.
  - rewrite Hin. cbn. repeat split.
    + apply length_remove. now apply contains_keys.
    + now apply get_remove_eq.
    + intros fid Hne. apply get_remove_ne. congruence.
Qed.
(** *** Dispatching an event *)

Lemma with_notified_calls (c : TgClient) cb cbs video v :
  let c1 := with_notified (notified c ++ [mkNotification cb video v (_loading c)]) c in
  with_notified (notified c1 ++ calls cbs video v (_loading c1)) c1
  = with_notified (notified c ++ calls (cb :: cbs) video v (_loading c)) c.
Proof. unfold with_notified. cbn. now rewrite <- app_assoc. Qed.

Lemma notify_run (video : ref) (v : TgVideo) (cb : callback) (c : TgClient) :
  heap c !! video = Some v ->
  notify subscriber video cb c
    = (match subscriber cb v with None => Ret tt | Some e => Raise e end,
       with_notified (notified c ++ [mkNotification cb video v (_loading c)]) c).
Proof.
  intros Hv. unfold notify, bind, deref, read, modify. rewrite Hv. cbn.
  destruct (subscriber cb v); reflexivity.
Qed.

(** The callbacks are called in order, up to the first one that raises. *)
Lemma for_each_notify (video : ref) (v : TgVideo) (cbs : list callback) :
  forall c : TgClient,
  heap c !! video = Some v ->
  exists (called : list callback) (r : result unit),
    for_each cbs (notify subscriber video) c
      = (r, with_notified (notified c ++ calls called video v (_loading c)) c) /\
    ((r = Ret tt /\ called = cbs /\ Forall (fun cb => subscriber cb v = None) cbs) \/
     (exists before cb after e,
         cbs = before ++ cb :: after /\ called = before ++ [cb] /\
         Forall (fun x => subscriber x v = None) before /\
         subscriber cb v = Some e /\ r = Raise e)).
Proof.
  induction cbs as [|cb cbs IH]; intros c Hv.
  - exists [], (Ret tt). split.
    + unfold calls. cbn. rewrite app_nil_r. now destruct c.
    + left. repeat split. constructor.
  - cbn [for_each]. unfold bind. rewrite (notify_run video v cb c Hv).
    set (c1 := with_notified (notified c ++ [mkNotification cb video v (_loading c)]) c).
    destruct (subscriber cb v) as [e|] eqn:Hcb.
    + exists [cb], (Raise e). split; [reflexivity|].
      right. exists [], cb, cbs, e. repeat split; auto.
    + destruct (IH c1 Hv) as (called & r & Hrun & Hcases).
      exists (cb :: called), r. split.
      * rewrite Hrun. f_equal. apply with_notified_calls.
      * destruct Hcases as [(-> & -> & Hall)|(before & x & after & e & -> & -> & Hb & Hx & ->)].
        -- left. repeat split. now constructor.
        -- right. exists (cb :: before), x, after, e. repeat split; auto.
Qed.

Lemma assign_twice (video : ref) (v : TgVideo) (f g : TgVideo -> TgVideo) (c : TgClient) :
  heap c !! video = Some v ->
  (assign video f ;; assign video g) c
    = (Ret tt, with_heap (<[video := g (f v)]> (heap c)) c).
Proof.
  intros Hv. pose proof (lookup_lt_Some _ _ _ Hv) as Hlt.
  unfold assign, bind, deref, modify. rewrite Hv. cbn.
  rewrite list_lookup_insert_eq by assumption. cbn.
  unfold with_heap. cbn. now rewrite list_insert_insert_eq.
Qed.

(** [_update_file_handler] on a tracked file: the update, then the calls. *)
Lemma _update_file_handler_tracked (event : FileEvent) (video : ref) (v : TgVideo)
      (c : TgClient) :
  get (_videos c) (ev_id event) = Some video ->
  heap c !! video = Some v ->
  _update_file_handler subscriber event c
    = for_each (_download_callbacks c) (notify subscriber video)
        (before_notifying event video v c).
Proof.
  intros Hcat Hv. pose proof (lookup_lt_Some _ _ _ Hv) as Hlt.
  unfold _update_file_handler. unfold bind at 1. unfold read at 1.
  rewrite Hcat.
  change (assign video ?f ;; (assign video ?g ;; ?k))
    with (bind (assign video f) (fun _ => bind (assign video g) (fun _ => k))).
  assert (Hassoc : forall {X} (m1 m2 : M unit) (k : M X) c0,
             bind m1 (fun _ => bind m2 (fun _ => k)) c0
             = bind (bind m1 (fun _ => m2)) (fun _ => k) c0).
  { intros X m1 m2 k c0. unfold bind. destruct (m1 c0) as [[[]|e] c1]; reflexivity. }
  rewrite Hassoc. unfold bind at 1.
  rewrite (assign_twice video v _ _ c Hv). fold (updated event v).
  unfold before_notifying.
  set (c1 := with_heap (<[video := updated event v]> (heap c)) c).
  unfold bind at 1. unfold deref.
  replace (heap c1 !! video) with (Some (updated event v))
    by (unfold c1; cbn; now rewrite list_lookup_insert_eq).
  unfold bind at 1.
  destruct (completed (updated event v)).
  - assert (Hrm : exists c2, _remove_from_queue video c1 = (Ret tt, c2) /\
                             _download_callbacks c2 = _download_callbacks c).
    { unfold _remove_from_queue, bind, read, modify, ret.
      destruct (find _ (_loading c1)) as [[k r]|]; eexists; split; reflexivity. }
    destruct Hrm as (c2 & Hrm & Hcbs). rewrite Hrm. cbn [snd].
    unfold bind, read. now rewrite Hcbs.
  - unfold ret at 1. unfold bind, read. reflexivity.
Qed.

Lemma before_notifying_frame (event : FileEvent) (video : ref) (v : TgVideo)
      (c : TgClient) :
  let c1 := before_notifying event video v c in
  heap c1 = <[video := updated event v]> (heap c) /\
  _videos c1 = _videos c /\
  _download_callbacks c1 = _download_callbacks c /\
  notified c1 = notified c /\
  sent c1 = sent c.
Proof.
  unfold before_notifying. destruct (completed (updated event v)); cbn; auto.
  unfold _remove_from_queue, bind, read, modify, ret.
  destruct (find _ _) as [[k r]|]; cbn; auto.
Qed.

(** C3, as the code has it: the callbacks are called in subscription
    order with the updated item, and the first one that raises ends the
    dispatch: the callbacks subscribed before it were called, those
    subscribed after it are not, and its exception leaves
    [_update_file_handler]. *)
Theorem raising_callback_ends_dispatch
    (event : FileEvent) (video : ref) (v : TgVideo) (c : TgClient)
    (before after : list callback) (cb : callback) (e : exn) :
  get (_videos c) (ev_id event) = Some video ->
  heap c !! video = Some v ->
  _download_callbacks c = before ++ cb :: after ->
  Forall (fun x => subscriber x (updated event v) = None) before ->
  subscriber cb (updated event v) = Some e ->
  let c' := snd (_update_file_handler subscriber event c) in
  fst (_update_file_handler subscriber event c) = Raise e /\
  notified c'
    = notified c ++ calls (before ++ [cb]) video (updated event v) (_loading c') /\
  map n_callback (notified c') = map n_callback (notified c) ++ before ++ [cb].
Proof.
  intros Hcat Hv Hcbs Hbefore Hcb c'.
  unfold c'. rewrite (_update_file_handler_tracked event video v c Hcat Hv).
  destruct (before_notifying_frame event video v c) as (Hheap & _ & _ & Hnot & _).
  set (c1 := before_notifying event video v c) in *.
  assert (Hv1 : heap c1 !! video = Some (updated event v)).
  { rewrite Hheap. apply list_lookup_insert_eq. eapply lookup_lt_Some, Hv. }
  destruct (for_each_notify video (updated event v) (_download_callbacks c) c1 Hv1)
    as (called & r & Hrun & Hcases).
  rewrite Hrun. cbn [fst snd].
  assert (Hcalled : called = before ++ [cb] /\ r = Raise e).
  { destruct Hcases as [(_ & _ & Hall)|(b' & x & a' & e' & Heq & -> & Hb' & Hx & ->)].
    - rewrite Hcbs in Hall. apply Forall_app in Hall as [_ Hall].
      inversion Hall; congruence.
    - rewrite Hcbs in Heq.
      destruct (first_outside_unique
                  (fun x => subscriber x (updated event v) = None)
                  before b' after a' cb x Heq)
        as (-> & -> & ->); try assumption; try congruence.
      split; congruence. }
  destruct Hcalled as [-> ->]. split; [reflexivity|]. cbn. rewrite Hnot.
  split; [reflexivity|].
  rewrite map_app. f_equal. unfold calls. rewrite map_map. cbn. apply map_id.
Qed.
(** *** Completion *)




(** *** Reserving slots *)

Lemma download_video_loading (video : ref) (c : TgClient) :
  _loading (snd (download_video transport video c))
    = match first_free (_loading c) (range 2 33) with
      | Some i => set (_loading c) i video
      | None => _loading c
      end.
Proof.
  unfold download_video, bind, read.
  destruct (first_free (_loading c) (range 2 33)) as [i|]; [|reflexivity].
  unfold modify, deref, _call, send, bind. cbn.
  destruct (heap c !! video) as [v|]; cbn; [|reflexivity].
  destruct (transport (sent c) (downloadFile (file_id v) i)); reflexivity.
Qed.

Lemma download_video_full (video : ref) (c : TgClient) :
  first_free (_loading c) (range 2 33) = None ->
  download_video transport video c = (Ret None, c).
Proof. intros Hfull. unfold download_video, bind, read. now rewrite Hfull. Qed.

Lemma download_all_spec (videos : list ref) :
  forall (c : TgClient) (m : Z),
  2 <= m -> m + Z.of_nat (length videos) <= 33 ->
  keys (_loading c) = range 2 m ->
  Forall (fun r => is_Some (heap c !! r)) videos ->
  exists rs c',
    download_all transport videos c = (rs, c') /\
    _loading c' = _loading c ++ zip (range m (m + Z.of_nat (length videos))) videos /\
    Forall2 reserved rs (range m (m + Z.of_nat (length videos))) /\
    (accepts_downloads transport ->
     rs = map (fun i => Ret (Some i)) (range m (m + Z.of_nat (length videos)))).
Proof.
  induction videos as [|video videos IH]; intros c m Hm Hroom Hkeys Hlive.
  - exists [], c. cbn. rewrite Z.add_0_r, range_nil, app_nil_r by lia.
    repeat split. constructor.
  - cbn [length] in *. cbn [download_all].
    apply list.Forall_cons in Hlive as [[v Hv] Hlive].
    assert (Hfree : m ∉ keys (_loading c)).
    { rewrite Hkeys, elem_of_range. lia. }
    assert (Hscan : first_free (_loading c) (range 2 33) = Some m).
    { apply first_free_range_least; [lia|now apply contains_false_keys|].
      intros j Hj. apply contains_keys. rewrite Hkeys. now apply elem_of_range. }
    rewrite (download_video_reserved video v c m Hv Hscan). cbn zeta.
    set (c1 := with_sent _ (with_loading (set (_loading c) m video) c)).
    assert (Hload1 : _loading c1 = _loading c ++ [(m, video)]).
    { unfold c1. cbn. now apply set_fresh. }
    destruct (IH c1 (m + 1)) as (rs & c' & Hrun & Hload & Hrs & Hacks);
      [lia|lia| |assumption|].
    { rewrite Hload1. unfold keys. rewrite map_app. cbn.
      fold (keys (_loading c)). rewrite Hkeys. now rewrite range_snoc by lia. }
    replace (m + Z.of_nat (S (length videos)))
      with (m + 1 + Z.of_nat (length videos)) by lia.
    rewrite (range_cons m) by lia.
    assert (Hzip : _loading c' = _loading c ++
              zip (m :: range (m + 1) (m + 1 + Z.of_nat (length videos)))
                  (video :: videos)).
    { rewrite Hload, Hload1, <- app_assoc. reflexivity. }
    destruct (transport (sent c) (downloadFile (file_id v) m)) as [info|u] eqn:Hresp;
      rewrite Hrun; eexists _, c'; (split; [reflexivity|]); (split; [exact Hzip|]).
    + split.
      * constructor; [right; eauto | assumption].
      * intros Hok. destruct (Hok (sent c) (file_id v) m) as [u Hu]. congruence.
    + split.
      * constructor; [now left | assumption].
      * intros Hok. cbn [map]. now rewrite (Hacks Hok).
Qed.

(** C4: the scan of [download_video] returns the least number of 2..32
    that is not bound, and the item is bound to it. From an empty slot
    mapping 31 downloads in a row take the slots 2, 3, ..., 32 in this order
    (each returns its slot unless the transport refused the request), and a
    32nd download returns [None] and leaves the client as it was. *)
Theorem download_video_reserves_lowest_free
    (c : TgClient) (videos : list ref) (extra : ref) :
  _loading c = [] ->
  length videos = 31%nat ->
  Forall (fun r => is_Some (heap c !! r)) videos ->
  (forall loading i,
      first_free loading (range 2 33) = Some i <->
      2 <= i <= 32 /\ contains loading i = false /\
      forall j, 2 <= j < i -> contains loading j = true) /\
  (forall loading,
      first_free loading (range 2 33) = None <->
      forall j, 2 <= j <= 32 -> contains loading j = true) /\
  (forall c0 video,
      _loading (snd (download_video transport video c0))
        = match first_free (_loading c0) (range 2 33) with
          | Some i => set (_loading c0) i video
          | None => _loading c0
          end) /\
  let (rs, c') := download_all transport videos c in
  _loading c' = zip (range 2 33) videos /\
  Forall2 reserved rs (range 2 33) /\
  (accepts_downloads transport -> rs = map (fun i => Ret (Some i)) (range 2 33)) /\
  download_video transport extra c' = (Ret None, c').
Proof.
  intros Hempty Hlen Hlive. split; [|split; [|split]].
  - intros loading i. split.
    + intros Hf. apply (first_free_range_Some loading 31 2 i) in Hf. cbn in Hf.
      destruct Hf as (Hi & Hfree & Hbelow). repeat split; try assumption; lia.
    + intros (Hi & Hfree & Hbelow). apply first_free_range_least; auto. lia.
  - intros loading. rewrite first_free_range_None. split; intros H j Hj; apply H; lia.
  - intros c0 video. apply download_video_loading.
  - destruct (download_all_spec videos c 2) as (rs & c' & Hrun & Hload & Hrs & Hacks);
      [lia|lia|now rewrite Hempty|assumption|].
    rewrite Hlen in Hload, Hrs, Hacks. change (2 + Z.of_nat 31) with 33 in *.
    rewrite Hempty in Hload. cbn [app] in Hload.
    rewrite Hrun. repeat split; try assumption.
    apply download_video_full, first_free_range_None.
    intros j Hj. apply contains_keys. rewrite Hload.
    change (keys (zip (range 2 33) videos)) with ((zip (range 2 33) videos).*1).
    rewrite fst_zip by (rewrite Hlen, range_2_33; cbn; lia). now apply elem_of_range.
Qed.

(** *** The slot mapping under any sequence of operations *)

Lemma _remove_from_queue_loading (video : ref) (c : TgClient) :
  _loading (snd (_remove_from_queue video c)) = _loading c \/
  exists k, _loading (snd (_remove_from_queue video c)) = remove (_loading c) k.
Proof.
  unfold _remove_from_queue, bind, read, modify, ret.
  destruct (find _ (_loading c)) as [[k r]|]; cbn; eauto.
Qed.

Lemma cancel_download_video_loading (video : ref) (c : TgClient) :
  _loading (snd (cancel_download_video transport video c))
    = _loading (snd (_remove_from_queue video c)).
Proof.
  unfold cancel_download_video, bind.
  destruct (_remove_from_queue video c) as [[[]|e] c1]; [|reflexivity].
  unfold deref, _call, send, bind. cbn.
  destruct (heap c1 !! video) as [v|]; cbn; [|reflexivity].
  destruct (transport (sent c1) (cancelDownloadFile (file_id v))); reflexivity.
Qed.

Lemma slots_in_range_set loading i (video : ref) :
  slots_in_range loading -> 2 <= i <= 32 -> slots_in_range (set loading i video).
Proof.
  intros [Hnd Hall] Hi. split; [now apply NoDup_keys_set|].
  rewrite keys_set. destruct (contains loading i); [assumption|].
  apply Forall_app. split; [assumption|]. now constructor.
Qed.

Lemma slots_in_range_remove (loading : dict Z ref) k :
  slots_in_range loading -> slots_in_range (remove loading k).
Proof.
  intros [Hnd Hall]. split; [now apply NoDup_keys_remove|].
  apply list.Forall_forall. intros x Hx.
  apply (keys_remove_subseteq loading k) in Hx.
  revert x Hx. now apply list.Forall_forall.
Qed.

Lemma apply_op_slots_in_range (o : slot_op) (c : TgClient) :
  slots_in_range (_loading c) -> slots_in_range (_loading (apply_op transport o c)).
Proof.
  intros Hinv. destruct o as [video|video|video]; cbn [apply_op].
  - rewrite download_video_loading.
    destruct (first_free (_loading c) (range 2 33)) as [i|] eqn:Hscan; [|assumption].
    apply slots_in_range_set; [assumption|].
    apply (first_free_range_Some (_loading c) 31 2 i) in Hscan. cbn in Hscan. lia.
  - rewrite cancel_download_video_loading.
    destruct (_remove_from_queue_loading video c) as [->|[k ->]];
      [assumption | now apply slots_in_range_remove].
  - destruct (_remove_from_queue_loading video c) as [->|[k ->]];
      [assumption | now apply slots_in_range_remove].
Qed.

Lemma slots_in_range_at_most_31 (loading : dict Z ref) :
  slots_in_range loading -> (length loading <= 31)%nat.
Proof.
  intros [Hnd Hall].
  assert (Hsub : keys loading ⊆+ range 2 33).
  { apply NoDup_submseteq; [assumption|]. intros x Hx. apply elem_of_range.
    rewrite list.Forall_forall in Hall. specialize (Hall x Hx). lia. }
  apply submseteq_length in Hsub. unfold keys in Hsub.
  rewrite length_map in Hsub. exact Hsub.
Qed.

(** C8, as the code has it: after any sequence of [download_video],
    [cancel_download_video] and [_remove_from_queue] calls each slot number
    in use is one of 2..32 and is bound to one item, so that at most 31 slots
    are taken. Nothing bounds the slots of one item: two downloads of the
    same item on an empty slot mapping bind it to the slots 2 and 3. *)
Theorem each_slot_holds_one_item (ops : list slot_op) (c : TgClient) :
  slots_in_range (_loading c) ->
  let c' := apply_ops transport ops c in
  slots_in_range (_loading c') /\
  one_item_per_slot (_loading c') /\
  (length (_loading c') <= 31)%nat /\
  forall (video : ref) (c0 : TgClient),
    _loading c0 = [] ->
    _loading (apply_ops transport [StartDownload video; StartDownload video] c0)
      = [(2, video); (3, video)].
Proof.
  intros Hinv c'.
  assert (Htwice : forall (video : ref) (c0 : TgClient),
             _loading c0 = [] ->
             _loading (apply_ops transport [StartDownload video; StartDownload video] c0)
               = [(2, video); (3, video)]).
  { intros video c0 Hempty. cbn [apply_ops fold_left apply_op].
    rewrite download_video_loading, download_video_loading, Hempty. reflexivity. }
  assert (Hinv' : slots_in_range (_loading c')).
  { unfold c', apply_ops. clear c'. revert c Hinv.
    induction ops as [|o ops IH]; intros c Hinv; cbn [fold_left]; [assumption|].
    apply IH. now apply apply_op_slots_in_range. }
  split; [assumption|]. split; [|split; [now apply slots_in_range_at_most_31|exact Htwice]].
  intros k r r' Hr Hr'. destruct Hinv' as [Hnd _].
  apply (elem_of_get _ _ _ Hnd) in Hr, Hr'. congruence.
Qed.
(** *** Fetching a page again *)

Lemma list_videos_messages limit (c : TgClient) messages :
  transport (sent c) (get_chat_history chat_id limit None)
    = Updated (Messages messages) ->
  exists (page : dict Z ref) (news : list TgVideo),
    snd (list_videos transport limit c)
      = with_videos page
          (with_heap (heap c ++ news)
             (with_sent (sent c ++ [get_chat_history chat_id limit None]) c)) /\
    forall fid v,
      page_entry (collect_albums messages) messages fid = Some v ->
      exists r, get page fid = Some r /\ (length (heap c) <= r)%nat /\
                (heap c ++ news) !! r = Some v.
Proof.
  intros Hresp.
  destruct (_fetch_page_messages limit None c messages Hresp)
    as (page & news & Hrun & _ & Hpage).
  exists page, news. unfold list_videos, bind. rewrite Hrun. cbn. split; [reflexivity|].
  intros fid v Hv. specialize (Hpage fid). now rewrite Hv in Hpage.
Qed.

Lemma load_next_messages limit (c : TgClient) messages (rest : list ref)
      (last : ref) (v_last : TgVideo) :
  values (_videos c) = rest ++ [last] ->
  heap c !! last = Some v_last ->
  transport (sent c) (get_chat_history chat_id limit (Some (message_id v_last)))
    = Updated (Messages messages) ->
  exists (page : dict Z ref) (news : list TgVideo),
    snd (load_next transport limit c)
      = with_videos (merge (_videos c) page)
          (with_heap (heap c ++ news)
             (with_sent
                (sent c ++ [get_chat_history chat_id limit (Some (message_id v_last))]) c)) /\
    NoDup (keys page) /\
    forall fid v,
      page_entry (collect_albums messages) messages fid = Some v ->
      exists r, get page fid = Some r /\ (length (heap c) <= r)%nat /\
                (heap c ++ news) !! r = Some v.
Proof.
  intros Hvalues Hlast Hresp.
  destruct (_fetch_page_messages limit (Some (message_id v_last)) c messages Hresp)
    as (page & news & Hrun & Hnd & Hpage).
  exists page, news. split; [|split; [assumption|]].
  - unfold load_next, videos, bind, read, ret. rewrite Hvalues.
    destruct (rest ++ [last]) as [|r0 rs] eqn:Hvs.
    { destruct rest; discriminate. }
    rewrite <- Hvs, index_last. unfold deref. rewrite Hlast.
    cbn zeta. rewrite Hrun. reflexivity.
  - intros fid v Hv. specialize (Hpage fid). now rewrite Hv in Hpage.
Qed.

(** C2, as the code has it: fetching a page again, by [list_videos] or
    by [load_next], gives the catalog a newly built item for every file id
    of the page, whether or not the item known under this id holds a slot;
    its [downloaded_size] and [local_path], like its other fields, are those
    the page reports. The slot mapping and the items built before, the one
    bound to a slot among them, are left as they were. *)
Theorem refetch_rebuilds_tracked_items
    (f : refetch) (c : TgClient) (messages : list Message) :
  (forall limit anchor,
      transport (sent c) (get_chat_history chat_id limit anchor)
        = Updated (Messages messages)) ->
  Forall (fun r => is_Some (heap c !! r)) (values (_videos c)) ->
  let c' := apply_refetch transport f c in
  _loading c' = _loading c /\
  (forall r v, heap c !! r = Some v -> heap c' !! r = Some v) /\
  forall fid v,
    page_entry (collect_albums messages) messages fid = Some v ->
    catalog_fields c' fid = Some v /\
    exists r, get (_videos c') fid = Some r /\ (length (heap c) <= r)%nat.
Proof.
  intros Hresp Hlive c'.
  assert (Hcore : exists (videos' : dict Z ref) (news : list TgVideo) (s : list Request),
             c' = with_videos videos' (with_heap (heap c ++ news) (with_sent s c)) /\
             forall fid v,
               page_entry (collect_albums messages) messages fid = Some v ->
               exists r, get videos' fid = Some r /\ (length (heap c) <= r)%nat /\
                         (heap c ++ news) !! r = Some v).
  { assert (Hlist : forall limit, exists videos' news s,
               snd (list_videos transport limit c)
                 = with_videos videos' (with_heap (heap c ++ news) (with_sent s c)) /\
               forall fid v,
                 page_entry (collect_albums messages) messages fid = Some v ->
                 exists r, get videos' fid = Some r /\ (length (heap c) <= r)%nat /\
                           (heap c ++ news) !! r = Some v).
    { intros limit.
      destruct (list_videos_messages limit c messages (Hresp limit None))
        as (page & news & Hrun & Hpage). eauto 6. }
    unfold c'. destruct f as [limit|limit]; cbn [apply_refetch]; [apply Hlist|].
    destruct (values (_videos c)) as [|r0 rs] eqn:Hvalues.
    - replace (snd (load_next transport limit c))
        with (snd (list_videos transport 100 c)); [apply Hlist|].
      unfold load_next, videos, bind at 1 2, read, ret. rewrite Hvalues.
      unfold bind, list_videos_limit.
      destruct (list_videos transport 100 c) as [[vs|e] c1]; reflexivity.
    - destruct (exists_last (l := r0 :: rs)) as (rest & last & Hsplit); [discriminate|].
      rewrite Hsplit in Hvalues, Hlive.
      apply Forall_app in Hlive as [_ Hlast].
      apply list.Forall_cons in Hlast as [[v_last Hlast] _].
      destruct (load_next_messages limit c messages rest last v_last Hvalues Hlast
                  (Hresp limit _))
        as (page & news & Hrun & Hnd & Hpage).
      eexists (merge (_videos c) page), news, _. split; [exact Hrun|].
      intros fid v Hv. destruct (Hpage fid v Hv) as (r & Hget & Hr & Hlook).
      exists r. rewrite get_merge, Hget by assumption. auto. }
  destruct Hcore as (videos' & news & s & -> & Hpage). cbn.
  split; [reflexivity|]. split.
  - intros r v Hv. rewrite lookup_app_l; [assumption|]. eapply lookup_lt_Some, Hv.
  - intros fid v Hv. destruct (Hpage fid v Hv) as (r & Hget & Hr & Hlook).
    unfold catalog_fields. cbn. rewrite Hget. eauto.
Qed.
End TgFacts.

(** ** The scroll window *)

Section TuiFacts.
Import Tui.
Context {A : Type} `{EqDecision A}.
Implicit Types (items : list A) (h : Z) (self : ScrollableListMixin).

Lemma len_positive items : (1 <= length items)%nat -> 1 <= len items.
Proof. unfold len. lia. Qed.

Lemma index_in_range items (i : Z) :
  0 <= i < len items -> exists x, index items i = Ret x /\ x ∈ items.
Proof.
  intros Hi. unfold index. fold (len items).
  replace (i <? 0) with false by (symmetry; apply Z.ltb_ge; lia).
  replace (0 <=? i) with true by (symmetry; apply Z.leb_le; lia).
  replace (i <? len items) with true by (symmetry; apply Z.ltb_lt; lia).
  cbn. destruct (lookup_lt_is_Some_2 items (Z.to_nat i)) as [x Hx].
  { unfold len in Hi. lia. }
  rewrite Hx. exists x. split; [reflexivity|].
  apply list_elem_of_lookup. eauto.
Qed.

Lemma _check_offset_in_window h (pos : Z) self :
  1 <= h -> 0 <= render_offset self -> 0 <= pos ->
  let o := render_offset (_check_offset h pos self) in
  0 <= o /\ o <= pos <= o + h - 1.
Proof.
  intros Hh Ho Hpos. unfold _check_offset.
  destruct (Z.ltb_spec (render_offset self + h - 1) pos); cbn.
  - lia.
  - destruct (Z.ltb_spec pos (render_offset self)); cbn; lia.
Qed.

Lemma _scroll_focused items h (delta i : Z) self :
  focused_index self = Some i -> 0 <= i < len items ->
  _scroll items h delta self
    = Ret (mkScrollableListMixin (Some ((len items + i + delta) mod len items))
             (render_offset
                (_check_offset h ((len items + i + delta) mod len items) self))).
Proof.
  intros Hfocus Hi.
  destruct (index_in_range items i Hi) as (x & Hx & Hin).
  unfold _scroll, focused_item. rewrite Hfocus, Hx.
  replace (len items <=? i) with false by (symmetry; apply Z.leb_gt; lia).
  rewrite bool_decide_eq_true_2 by assumption.
  destruct items; [inversion Hin | reflexivity].
Qed.

Lemma _scroll_unfocused items h (delta : Z) self :
  (1 <= length items)%nat ->
  focused_index self = None ->
  _scroll items h delta self = Ret (mkScrollableListMixin (Some 0) 0).
Proof.
  intros Hn Hfocus. unfold _scroll, focused_item. rewrite Hfocus.
  destruct items; [cbn in Hn; lia | reflexivity].
Qed.

(** Every call preserves the window and leaves a focus. *)
Lemma step_in_window items h (k : call) self :
  (1 <= length items)%nat -> 1 <= h ->
  in_window (len items) h self ->
  exists i o,
    step items h k self = Ret (mkScrollableListMixin (Some i) o) /\
    in_window (len items) h (mkScrollableListMixin (Some i) o).
Proof.
  intros Hitems Hh [Ho Hfocus]. pose proof (len_positive items Hitems) as Hn.
  destruct k as [delta| |]; cbn [step].
  - destruct (focused_index self) as [i|] eqn:Hi.
    + rewrite (_scroll_focused items h delta i self Hi) by lia.
      assert (Hmod : 0 <= (len items + i + delta) mod len items < len items)
        by (apply Z.mod_pos_bound; lia).
      eexists _, _. split; [reflexivity|].
      destruct (_check_offset_in_window h ((len items + i + delta) mod len items) self)
        as [Ho' Hw]; [assumption|assumption|lia|].
      split; cbn; [assumption|lia].
    + rewrite (_scroll_unfocused items h delta self Hitems Hi).
      eexists _, _. split; [reflexivity|]. split; cbn; lia.
  - exists 0, 0. split; [|split; cbn; lia].
    unfold key_home. destruct items; [cbn in Hitems; lia | reflexivity].
  - destruct (_check_offset_in_window h (len items - 1) self) as [Ho' Hw];
      [assumption|assumption|lia|].
    eexists (len items - 1), _. split; [|split; cbn; [exact Ho'|lia]].
    unfold key_end. destruct items; [cbn in Hitems; lia | reflexivity].
Qed.

Lemma run_app items h (ks1 ks2 : list call) self :
  run items h (ks1 ++ ks2) self
    = match run items h ks1 self with
      | Ret self' => run items h ks2 self'
      | Raise e => Raise e
      end.
Proof.
  revert self. induction ks1 as [|k ks1 IH]; intros self; cbn; [reflexivity|].
  destruct (step items h k self); [apply IH | reflexivity].
Qed.

Lemma run_in_window items h (ks : list call) :
  (1 <= length items)%nat -> 1 <= h ->
  forall self,
  in_window (len items) h self ->
  exists self', run items h ks self = Ret self' /\ in_window (len items) h self'.
Proof.
  intros Hitems Hh. induction ks as [|k ks IH]; intros self Hw; cbn [run].
  - eauto.
  - destruct (step_in_window items h k self Hitems Hh Hw) as (i & o & -> & Hw').
    now apply IH.
Qed.

(** C6: on a list of [n >= 1] items shown in [h >= 1] rows, any sequence
    of [_scroll], [key_home] and [key_end] calls from the initial state
    (offset 0, no focus) runs to its end, and after each call there is a
    focus [i] with [0 <= offset <= i <= offset + h - 1] and [0 <= i <= n - 1];
    a further [_scroll(delta)] moves the focus to [(n + i + delta) mod n]. *)
Theorem scroll_keeps_focus_in_window items h (ks : list call) (k : call) :
  (1 <= length items)%nat ->
  1 <= h ->
  exists i o,
    run items h (ks ++ [k]) initial = Ret (mkScrollableListMixin (Some i) o) /\
    0 <= o /\ o <= i /\ i <= o + h - 1 /\ 0 <= i <= len items - 1 /\
    forall delta, exists o',
      run items h (ks ++ [k; Scroll delta]) initial
        = Ret (mkScrollableListMixin
                 (Some ((len items + i + delta) mod len items)) o').
Proof.
  intros Hitems Hh.
  assert (Hinit : in_window (len items) h initial) by (split; cbn; [lia|exact I]).
  destruct (run_in_window items h ks Hitems Hh initial Hinit) as (self & Hrun & Hw).
  destruct (step_in_window items h k self Hitems Hh Hw) as (i & o & Hstep & Hw').
  exists i, o. rewrite run_app, Hrun. cbn [run]. rewrite Hstep.
  destruct Hw' as [Ho [Hio Hi]]. cbn in Ho, Hio, Hi.
  split; [reflexivity|]. repeat (split; [lia|]).
  intros delta. eexists.
  change [k; Scroll delta] with ([k] ++ [Scroll delta]).
  rewrite app_assoc, run_app, run_app, Hrun. cbn [run]. rewrite Hstep. cbn [step].
  rewrite (_scroll_focused items h delta i (mkScrollableListMixin (Some i) o) eq_refl)
    by lia.
  reflexivity.
Qed.
End TuiFacts.

(** ** Examples *)

(** C1 on the sample catalog: the transport refuses the download, the
    exception reaches the caller and slot 2 is still bound afterwards, so
    the slot mapping is not the one before the call. *)
Lemma download_video_failure_leaves_slot_bound :
  fst (download_video refusing 0%nat sample_client)
    = Raise (TgException "cant downloadFile: timeout") /\
  _loading sample_client = [] /\
  _loading (snd (download_video refusing 0%nat sample_client)) = [(2, 0%nat)] /\
  _loading (snd (download_video refusing 0%nat sample_client))
    <> _loading sample_client.
Proof. repeat split. discriminate. Qed.

Lemma download_video_failure_keeps_slot_witness :
  heap sample_client !! 0%nat = Some sample_video /\
  first_free (_loading sample_client) (range 2 33) = Some 2 /\
  refusing (sent sample_client) (downloadFile (file_id sample_video) 2)
    = Failed "timeout" /\
  get (_loading (snd (download_video refusing 0%nat sample_client))) 2
    = Some 0%nat.
Proof.
  split; [reflexivity|]. split; [reflexivity|]. split; [reflexivity|].
  destruct (download_video_failure_keeps_slot refusing 0%nat sample_video
              sample_client 2 "timeout" eq_refl eq_refl eq_refl)
    as (c' & Hrun & _ & Hget & _).
  rewrite Hrun. exact Hget.
Defined.

(** C2 on the sample catalog: the video holds slot 2 with 500 bytes
    downloaded; the page reports 0 bytes and no path, and after either
    refetch the catalog shows these for file 7. *)
Lemma refetch_overwrites_tracked_item :
  get (_loading tracked_client) 2 = Some 0%nat /\
  get (_videos tracked_client) 7 = Some 0%nat /\
  downloaded_size <$> catalog_fields tracked_client 7 = Some 500 /\
  local_path <$> catalog_fields tracked_client 7 = Some (Some "/tmp/7.mp4") /\
  downloaded_size <$>
    catalog_fields (apply_refetch accepting (ListVideos 100) tracked_client) 7
    = Some 0 /\
  local_path <$>
    catalog_fields (apply_refetch accepting (ListVideos 100) tracked_client) 7
    = Some (Some "") /\
  downloaded_size <$>
    catalog_fields (apply_refetch accepting (LoadNext 10) tracked_client) 7
    = Some 0 /\
  local_path <$>
    catalog_fields (apply_refetch accepting (LoadNext 10) tracked_client) 7
    = Some (Some "").
Proof. repeat split. Qed.

Lemma refetch_rebuilds_tracked_items_witness :
  (forall limit anchor,
      accepting (sent tracked_client) (get_chat_history chat_id limit anchor)
        = Updated (Messages sample_page)) /\
  Forall (fun r => is_Some (heap tracked_client !! r)) (values (_videos tracked_client)) /\
  downloaded_size <$>
    catalog_fields (apply_refetch accepting (LoadNext 10) tracked_client) 7
    = Some 0.
Proof.
  assert (H1 : forall limit anchor,
             accepting (sent tracked_client) (get_chat_history chat_id limit anchor)
               = Updated (Messages sample_page)) by reflexivity.
  assert (H2 : Forall (fun r => is_Some (heap tracked_client !! r))
                 (values (_videos tracked_client))).
  { repeat constructor. eexists. reflexivity. }
  split; [exact H1|]. split; [exact H2|].
  destruct (refetch_rebuilds_tracked_items accepting (LoadNext 10) tracked_client
              sample_page H1 H2) as (_ & _ & Hpage).
  destruct (Hpage 7 _ eq_refl) as [-> _]. reflexivity.
Defined.

(** C3 on the sample catalog: callback 0 raises, callback 1 was
    subscribed after it and is never called; the exception leaves the
    handler. *)
Lemma raising_callback_starves_the_next :
  let event := mkFileEvent 7 "/tmp/7.mp4" 600 in
  let c' := snd (_update_file_handler first_raises event sample_client) in
  _download_callbacks sample_client = [0%nat; 1%nat] /\
  fst (_update_file_handler first_raises event sample_client)
    = Raise (SubscriberError "boom") /\
  map n_callback (notified c') = [0%nat] /\
  1%nat ∉ map n_callback (notified c').
Proof.
  cbn zeta. repeat split.
  intros Hin. apply elem_of_cons in Hin as [Hin|Hin]; [discriminate | inversion Hin].
Qed.

Lemma raising_callback_ends_dispatch_witness :
  let event := mkFileEvent 7 "/tmp/7.mp4" 600 in
  get (_videos sample_client) (ev_id event) = Some 0%nat /\
  heap sample_client !! 0%nat = Some sample_video /\
  _download_callbacks sample_client = [] ++ 0%nat :: [1%nat] /\
  Forall (fun x => first_raises x (updated event sample_video) = None) [] /\
  first_raises 0%nat (updated event sample_video) = Some (SubscriberError "boom") /\
  fst (_update_file_handler first_raises event sample_client)
    = Raise (SubscriberError "boom").
Proof.
  cbn zeta.
  split; [reflexivity|]. split; [reflexivity|]. split; [reflexivity|].
  split; [constructor|]. split; [reflexivity|].
  apply (raising_callback_ends_dispatch first_raises
           (mkFileEvent 7 "/tmp/7.mp4" 600) 0%nat sample_video sample_client
           [] [1%nat] 0%nat (SubscriberError "boom") eq_refl eq_refl eq_refl
           (Forall_nil _) eq_refl).
Defined.

Lemma download_video_reserves_lowest_free_witness :
  _loading many_client = [] /\
  length (seq 0 31) = 31%nat /\
  Forall (fun r => is_Some (heap many_client !! r)) (seq 0 31) /\
  fst (download_all accepting (seq 0 31) many_client)
    = map (fun i => Ret (Some i)) (range 2 33) /\
  keys (_loading (snd (download_all accepting (seq 0 31) many_client)))
    = range 2 33 /\
  fst (download_video accepting 0%nat
         (snd (download_all accepting (seq 0 31) many_client))) = Ret None.
Proof.
  assert (H3 : Forall (fun r => is_Some (heap many_client !! r)) (seq 0 31)).
  { repeat (constructor; [eexists; reflexivity|]). constructor. }
  split; [reflexivity|]. split; [reflexivity|]. split; [exact H3|].
  pose proof (download_video_reserves_lowest_free accepting many_client (seq 0 31)
                0%nat eq_refl eq_refl H3) as (_ & _ & _ & Hrun).
  destruct (download_all accepting (seq 0 31) many_client) as [rs c'].
  destruct Hrun as (Hload & _ & Hrs & Hfull). cbn [fst snd].
  split; [apply Hrs; intros history file priority; now exists Ack|].
  split; [rewrite Hload; reflexivity|]. now rewrite Hfull.
Defined.




Lemma scroll_keeps_focus_in_window_witness :
  (1 <= length ["a"; "b"; "c"])%nat /\
  1 <= 2 /\
  exists i o,
    Tui.run ["a"; "b"; "c"] 2 ([Tui.Scroll 1; Tui.KeyEnd] ++ [Tui.Scroll 5]) Tui.initial
      = Ret (Tui.mkScrollableListMixin (Some i) o) /\
    0 <= o /\ o <= i /\ i <= o + 2 - 1 /\ 0 <= i <= 2.
Proof.
  assert (H1 : (1 <= length ["a"; "b"; "c"])%nat) by (cbn; lia).
  assert (H2 : 1 <= 2) by lia.
  split; [exact H1|]. split; [exact H2|].
  destruct (scroll_keeps_focus_in_window ["a"; "b"; "c"] 2
              [Tui.Scroll 1; Tui.KeyEnd] (Tui.Scroll 5) H1 H2)
    as (i & o & Hrun & Ho & Hoi & Hio & Hi & _).
  exists i, o. repeat split; try assumption; apply Hi.
Defined.

Lemma delete_message_one_call_then_remove_witness :
  heap sample_client !! 0%nat = Some sample_video /\
  get (_videos sample_client) (file_id sample_video) = Some 0%nat /\
  NoDup (keys (_videos sample_client)) /\
  sent (snd (delete_message accepting 0%nat sample_client))
    = [deleteMessages 0 [70; 71; 73]] /\
  sent (snd (delete_message refusing 0%nat sample_client))
    = [deleteMessages 0 [70; 71; 73]].
Proof.
  assert (H3 : NoDup (keys (_videos sample_client))).
  { repeat constructor. intros Hin. inversion Hin. }
  split; [reflexivity|]. split; [reflexivity|]. split; [exact H3|].
  split.
  - exact (proj1 (delete_message_one_call_then_remove accepting 0%nat sample_video
                    sample_client eq_refl eq_refl H3)).
  - exact (proj1 (delete_message_one_call_then_remove refusing 0%nat sample_video
                    sample_client eq_refl eq_refl H3)).
Defined.

(** C8 on the sample catalog: two downloads of the same video bind it to
    the slots 2 and 3. *)
Lemma second_download_takes_second_slot :
  let c' := apply_ops accepting [StartDownload 0%nat; StartDownload 0%nat] sample_client in
  _loading c' = [(2, 0%nat); (3, 0%nat)] /\
  ~ one_slot_per_item (_loading c').
Proof.
  cbn zeta. split; [reflexivity|].
  intros Hone. specialize (Hone 2 3 0%nat).
  assert (Heq : 2 = 3); [|discriminate].
  apply Hone; cbn; [left | right; left].
Qed.

Lemma each_slot_holds_one_item_witness :
  slots_in_range (_loading sample_client) /\
  (length (_loading (apply_ops accepting
                       [StartDownload 0%nat; StartDownload 0%nat; CancelDownload 0%nat]
                       sample_client)) <= 31)%nat.
Proof.
  assert (H1 : slots_in_range (_loading sample_client)).
  { split; constructor. }
  split; [exact H1|].
  pose proof (each_slot_holds_one_item accepting
                [StartDownload 0%nat; StartDownload 0%nat; CancelDownload 0%nat]
                sample_client H1) as (_ & _ & Hcap & _).
  exact Hcap.
Defined.

Lemma load_next_limit_only_after_first_page_witness :
  sent (snd (load_next accepting 10 __init__)) = [get_chat_history 0 100 None] /\
  load_next accepting 10 __init__ = load_next accepting 500 __init__ /\
  heap sample_client !! 0%nat = Some sample_video /\
  sent (snd (load_next accepting 10 (with_videos ([] ++ [(7, 0%nat)]) sample_client)))
    = [get_chat_history 0 10 (Some 70)].
Proof.
  pose proof (load_next_limit_only_after_first_page accepting 500 __init__
                [] 7 0%nat sample_video) as [(_ & Hfirst & Hany) _].
  pose proof (load_next_limit_only_after_first_page accepting 10 sample_client
                [] 7 0%nat sample_video) as [_ Hnext].
  split; [exact (eq_trans (f_equal (fun r => sent (snd r)) (Hany 10)) Hfirst)|].
  split; [exact (Hany 10)|]. split; [reflexivity|].
  exact (Hnext eq_refl).
Defined.

Lemma remove_download_callback_first_occurrence_witness :
(3%nat ∉ [1%nat; 2%nat]) /\
  remove_download_callback 3%nat
    (with_download_callbacks ([1%nat; 2%nat] ++ 3%nat :: [4%nat; 3%nat]) sample_client)
  = (Ret tt, with_download_callbacks [1%nat; 2%nat; 4%nat; 3%nat] sample_client).
Proof.
  assert (H1 : 3%nat ∉ [1%nat; 2%nat]).
  { intros Hin. apply elem_of_cons in Hin as [Hin|Hin]; [discriminate|].
    apply elem_of_cons in Hin as [Hin|Hin]; [discriminate | inversion Hin]. }
  split; [exact H1|].
  exact (proj2 (remove_download_callback_first_occurrence 3%nat [1%nat; 2%nat]
                  [4%nat; 3%nat] sample_client H1)).
Defined.

(** * Further properties of the client *)

Lemma find_all_false {X} (P : X -> bool) (l : list X) :
  Forall (fun x => P x = false) l -> find P l = None.
Proof.
  induction 1 as [|x l Hx _ IH]; cbn; [reflexivity|]. now rewrite Hx.
Qed.

Lemma find_first_true {X} (P : X -> bool) (before after : list X) (x : X) :
  Forall (fun y => P y = false) before -> P x = true ->
  find P (before ++ x :: after) = Some x.
Proof.
  induction 1 as [|y before Hy _ IH]; cbn; intros Hx.
  - now rewrite Hx.
  - rewrite Hy. now apply IH.
Qed.

Lemma remove_middle {V} (before after : dict Z V) (k : Z) (v : V) :
  k ∉ keys before -> remove (before ++ (k, v) :: after) k = before ++ after.
Proof.
  induction before as [|[k0 v0] before IH]; cbn; intros Hk.
  - now rewrite decide_True.
  - apply not_elem_of_cons in Hk as [Hne Hk].
    rewrite decide_False by congruence. now rewrite IH.
Qed.

Section Dispatch.
Variable subscriber : callback -> TgVideo -> option exn.

(** An event for a file the catalog does not know changes nothing and
    calls nobody. *)
Lemma untracked_event_is_ignored (event : FileEvent) (c : TgClient) :
  get (_videos c) (ev_id event) = None ->
  _update_file_handler subscriber event c = (Ret tt, c).
Proof.
  intros Hcat. unfold _update_file_handler, bind, read. now rewrite Hcat.
Qed.

(** What an event changes, whatever the callbacks do. *)
Lemma _update_file_handler_frame (event : FileEvent) (video : ref) (v : TgVideo)
      (c : TgClient) :
  get (_videos c) (ev_id event) = Some video ->
  heap c !! video = Some v ->
  let c' := snd (_update_file_handler subscriber event c) in
  heap c' = <[video := updated event v]> (heap c) /\
  _videos c' = _videos c /\
  _download_callbacks c' = _download_callbacks c /\
  sent c' = sent c /\
  _loading c' = _loading (before_notifying event video v c).
Proof.
  intros Hcat Hv c'. unfold c'.
  rewrite (_update_file_handler_tracked subscriber event video v c Hcat Hv).
  destruct (before_notifying_frame event video v c) as (Hheap & Hvs & Hcbs & _ & Hsent).
  set (c1 := before_notifying event video v c) in *.
  assert (Hv1 : heap c1 !! video = Some (updated event v)).
  { rewrite Hheap. apply list_lookup_insert_eq. eapply lookup_lt_Some, Hv. }
  destruct (for_each_notify subscriber video (updated event v)
              (_download_callbacks c) c1 Hv1) as (called & r & Hrun & _).
  rewrite Hrun. cbn. auto.
Qed.

(** X1: an event for a tracked file assigns [local_path] (an empty path is
    [None]) and [downloaded_size] of the one object the catalog holds for
    it; the other fields of the object, the other objects, the catalog
    mapping and the subscriber list stay as they were and no request is
    sent, also when a callback raises. *)
Theorem event_updates_two_fields_of_one_object
    (event : FileEvent) (video : ref) (v : TgVideo) (c : TgClient) :
  get (_videos c) (ev_id event) = Some video ->
  heap c !! video = Some v ->
  let c' := snd (_update_file_handler subscriber event c) in
  heap c' !! video
    = Some {| caption := caption v; duration := duration v;
              expected_size := expected_size v;
              downloaded_size := ev_downloaded_size event;
              file_id := file_id v; message_id := message_id v;
              album := album v;
              local_path := if decide (ev_path event = "") then None
                            else Some (ev_path event);
              source_group := source_group v |} /\
  (forall r, r <> video -> heap c' !! r = heap c !! r) /\
  _videos c' = _videos c /\
  _download_callbacks c' = _download_callbacks c /\
  sent c' = sent c.
Proof.
  intros Hcat Hv c'.
  destruct (_update_file_handler_frame event video v c Hcat Hv)
    as (Hheap & Hvs & Hcbs & Hsent & _).
  fold c' in Hheap, Hvs, Hcbs, Hsent. rewrite Hheap.
  split; [|split; [|auto]].
  - rewrite list_lookup_insert_eq by (eapply lookup_lt_Some, Hv). reflexivity.
  - intros r Hr. now rewrite list_lookup_insert_ne by congruence.
Qed.

(** X2: when no callback raises, every subscriber is called once, in
    subscription order, with the updated fields, and the handler returns. *)
Theorem quiet_callbacks_are_all_called
    (event : FileEvent) (video : ref) (v : TgVideo) (c : TgClient) :
  get (_videos c) (ev_id event) = Some video ->
  heap c !! video = Some v ->
  Forall (fun cb => subscriber cb (updated event v) = None) (_download_callbacks c) ->
  let c' := snd (_update_file_handler subscriber event c) in
  fst (_update_file_handler subscriber event c) = Ret tt /\
  notified c'
    = notified c
      ++ calls (_download_callbacks c) video (updated event v) (_loading c').
Proof.
  intros Hcat Hv Hquiet c'. unfold c'.
  rewrite (_update_file_handler_tracked subscriber event video v c Hcat Hv).
  destruct (before_notifying_frame event video v c) as (Hheap & _ & _ & Hnot & _).
  set (c1 := before_notifying event video v c) in *.
  assert (Hv1 : heap c1 !! video = Some (updated event v)).
  { rewrite Hheap. apply list_lookup_insert_eq. eapply lookup_lt_Some, Hv. }
  destruct (for_each_notify subscriber video (updated event v)
              (_download_callbacks c) c1 Hv1) as (called & r & Hrun & Hcases).
  rewrite Hrun. cbn [fst snd].
  destruct Hcases as [(-> & -> & _)|(before & cb & after & e & Heq & _ & _ & Hcb & _)].
  - split; [reflexivity|]. cbn. now rewrite Hnot.
  - exfalso. rewrite Heq in Hquiet. apply Forall_app in Hquiet as [_ Hquiet].
    apply list.Forall_cons in Hquiet as [Hquiet _]. congruence.
Qed.

(** X3: an event that completes a video frees no slot when no slot holds an
    object with the fields the video has after the event: the slot of an
    object that a refetch replaced in the catalog, or no slot at all after a
    cancel, is left as it is. *)
Theorem completing_event_frees_only_an_equal_object
    (event : FileEvent) (video : ref) (v : TgVideo) (c : TgClient) :
  get (_videos c) (ev_id event) = Some video ->
  heap c !! video = Some v ->
  video ∉ values (_loading c) ->
  no_slot_holds c (updated event v) ->
  _loading (snd (_update_file_handler subscriber event c)) = _loading c.
Proof.
  intros Hcat Hv Hfree Hnone.
  destruct (_update_file_handler_frame event video v c Hcat Hv) as (_ & _ & _ & _ & ->).
  unfold before_notifying.
  destruct (completed (updated event v)); [|reflexivity].
  set (c1 := with_heap _ c).
  unfold _remove_from_queue, bind, read.
  rewrite find_all_false; [reflexivity|].
  change (_loading c1) with (_loading c).
  unfold no_slot_holds in Hnone. unfold values in Hfree.
  induction (_loading c) as [|[k r] l IH]; [constructor|].
  apply list.Forall_cons in Hnone as [Hr Hnone]. cbn in Hfree, Hr.
  apply not_elem_of_cons in Hfree as [Hne Hfree].
  constructor; [|now apply IH].
  cbn. unfold video_eq. apply bool_decide_eq_false_2. unfold c1. cbn.
  rewrite list_lookup_insert_eq by (eapply lookup_lt_Some, Hv).
  now rewrite list_lookup_insert_ne by congruence.
Qed.
End Dispatch.

Section Slots.
Variable transport : list Request -> Request -> Response.

(** [_remove_from_queue] with the slot it frees. *)
Lemma _remove_from_queue_first (video : ref) (c : TgClient)
      (before after : dict Z ref) (k : Z) (r : ref) :
  _loading c = before ++ (k, r) :: after ->
  k ∉ keys before ->
  Forall (fun kv => heap c !! snd kv <> heap c !! video) before ->
  heap c !! r = heap c !! video ->
  _remove_from_queue video c = (Ret tt, with_loading (before ++ after) c).
Proof.
  intros Hload Hk Hbefore Hr. unfold _remove_from_queue, bind, read.
  rewrite Hload.
  rewrite (find_first_true _ before after (k, r)).
  - unfold modify. now rewrite remove_middle.
  - eapply list.Forall_impl; [exact Hbefore|]. intros [k0 r0] Hne. cbn in *.
    unfold video_eq. now apply bool_decide_eq_false_2.
  - cbn. unfold video_eq. now apply bool_decide_eq_true_2.
Qed.

Lemma NoDup_keys_middle {V} (before after : dict Z V) (k : Z) (v : V) :
  NoDup (keys (before ++ (k, v) :: after)) -> k ∉ keys before.
Proof.
  unfold keys. rewrite map_app. intros Hnd.
  apply list.NoDup_app in Hnd as (_ & Hdisj & _).
  intros Hin. apply (Hdisj k Hin). left.
Qed.

Lemma _remove_from_queue_none (video : ref) (c : TgClient) :
  Forall (fun kv => heap c !! snd kv <> heap c !! video) (_loading c) ->
  _remove_from_queue video c = (Ret tt, c).
Proof.
  intros Hnone. unfold _remove_from_queue, bind, read.
  rewrite find_all_false; [reflexivity|].
  eapply list.Forall_impl; [exact Hnone|]. intros [k0 r0] Hne. cbn in *.
  unfold video_eq. now apply bool_decide_eq_false_2.
Qed.

(** X4: [_remove_from_queue] frees one slot: the first, in the order the slots
    were taken, whose object has the same fields as the video, be it the
    same object or another one. The slots taken before and after it keep
    their order. *)
Theorem release_frees_first_equal_slot
    (video : ref) (c : TgClient) (before after : dict Z ref) (k : Z) (r : ref) :
  _loading c = before ++ (k, r) :: after ->
  NoDup (keys (_loading c)) ->
  Forall (fun kv => heap c !! snd kv <> heap c !! video) before ->
  heap c !! r = heap c !! video ->
  _remove_from_queue video c = (Ret tt, with_loading (before ++ after) c) /\
  get (before ++ after) k = None.
Proof.
  intros Hload Hnd Hbefore Hr.
  assert (Hk : k ∉ keys before).
  { rewrite Hload in Hnd. now apply NoDup_keys_middle in Hnd. }
  split; [now apply (_remove_from_queue_first video c before after k r)|].
  rewrite <- (remove_middle before after k r) by assumption.
  rewrite <- Hload. now apply get_remove_eq.
Qed.

(** [_remove_from_queue] raises nothing and touches the slot mapping only. *)
Lemma _remove_from_queue_frame (video : ref) (c : TgClient) :
  fst (_remove_from_queue video c) = Ret tt /\
  heap (snd (_remove_from_queue video c)) = heap c /\
  sent (snd (_remove_from_queue video c)) = sent c.
Proof.
  unfold _remove_from_queue, bind, read, modify, ret.
  destruct (find _ (_loading c)) as [[k r]|]; cbn; auto.
Qed.

(** The scan of [_remove_from_queue] finds a bound slot, or no slot holds an
    object with the fields of the video. *)
Lemma slot_scan (video : ref) (v : TgVideo) (c : TgClient) :
  heap c !! video = Some v ->
  no_slot_holds c v \/
  exists k r,
    find (fun kv => video_eq c (snd kv) video) (_loading c) = Some (k, r) /\
    k ∈ keys (_loading c) /\
    ~ no_slot_holds c v.
Proof.
  intros Hv.
  destruct (find (fun kv => video_eq c (snd kv) video) (_loading c))
    as [[k r]|] eqn:Hfind.
  - right. exists k, r. split; [reflexivity|].
    apply find_some in Hfind as [Hin Heq]. apply list_elem_of_In in Hin.
    split.
    + unfold keys. change k with (fst (k, r)). now apply list_elem_of_fmap_2.
    + intros Hnone. unfold no_slot_holds in Hnone.
      rewrite list.Forall_forall in Hnone. apply (Hnone _ Hin).
      cbn in Heq. unfold video_eq in Heq. apply bool_decide_eq_true_1 in Heq.
      cbn. now rewrite Heq.
  - left. unfold no_slot_holds. apply list.Forall_forall.
    intros [k r] Hin Heq. apply list_elem_of_In in Hin.
    pose proof (find_none _ _ Hfind _ Hin) as Hne. cbn in Hne.
    unfold video_eq in Hne. apply bool_decide_eq_false_1 in Hne.
    apply Hne. cbn in Heq. now rewrite Heq, Hv.
Qed.

Lemma _remove_from_queue_found (video : ref) (c : TgClient) (k : Z) (r : ref) :
  find (fun kv => video_eq c (snd kv) video) (_loading c) = Some (k, r) ->
  _remove_from_queue video c = (Ret tt, with_loading (remove (_loading c) k) c).
Proof.
  intros Hfind. unfold _remove_from_queue, bind, read. now rewrite Hfind.
Qed.

Lemma find_app_Some {X} (P : X -> bool) (l l' : list X) (x : X) :
  find P l = Some x -> find P (l ++ l') = Some x.
Proof.
  induction l as [|y l IH]; cbn; [discriminate|].
  destruct (P y); [trivial | exact IH].
Qed.

(** What [cancel_download_video] does to a live video: release, then one
    request. *)
Lemma cancel_download_video_run (video : ref) (v : TgVideo) (c : TgClient) :
  heap c !! video = Some v ->
  cancel_download_video transport video c =
    let c' := with_sent (sent c ++ [cancelDownloadFile (file_id v)])
                (snd (_remove_from_queue video c)) in
    match transport (sent c) (cancelDownloadFile (file_id v)) with
    | Failed error_info =>
        (Raise (TgException ("cant cancelDownloadFile: " +:+ error_info)), c')
    | Updated _ => (Ret tt, c')
    end.
Proof.
  intros Hv. destruct (_remove_from_queue_frame video c) as (Hret & Hheap & Hsent).
  unfold cancel_download_video. unfold bind at 1.
  destruct (_remove_from_queue video c) as [r c1]. cbn [fst snd] in *. subst r.
  unfold bind, deref, _call, send. cbn. rewrite Hheap, Hv, Hsent. cbn.
  destruct (transport (sent c) (cancelDownloadFile (file_id v))); reflexivity.
Qed.

(** X5: [cancel_download_video] releases before it talks to the transport:
    when the cancel request fails, the [TgException] reaches the caller and
    the slot mapping is the one [_remove_from_queue] leaves all the same.
    The slot that is free then is the first one, in the order the slots were
    taken, that holds an object with the fields of the video: the video's
    own slot when no earlier slot holds such an object, the slot of another
    object otherwise. When no slot holds such an object, the mapping is as
    it was. *)
Theorem cancel_frees_slot_before_failing
    (video : ref) (v : TgVideo) (c : TgClient) (error_info : string) :
  heap c !! video = Some v ->
  transport (sent c) (cancelDownloadFile (file_id v)) = Failed error_info ->
  let out := cancel_download_video transport video c in
  fst out = Raise (TgException ("cant cancelDownloadFile: " +:+ error_info)) /\
  sent (snd out) = sent c ++ [cancelDownloadFile (file_id v)] /\
  _loading (snd out) = _loading (snd (_remove_from_queue video c)) /\
  (forall (before after : dict Z ref) (k : Z) (r : ref),
     _loading c = before ++ (k, r) :: after ->
     NoDup (keys (_loading c)) ->
     Forall (fun kv => heap c !! snd kv <> Some v) before ->
     heap c !! r = Some v ->
     _loading (snd out) = before ++ after /\
     get (_loading (snd out)) k = None) /\
  (no_slot_holds c v -> _loading (snd out) = _loading c).
Proof.
  intros Hv Hfail out. unfold out.
  rewrite (cancel_download_video_run video v c Hv). cbn zeta. rewrite Hfail.
  cbn [fst snd]. split; [reflexivity|]. split; [reflexivity|].
  split; [reflexivity|]. split.
  - intros before after k r Hload Hnd Hbefore Hr.
    assert (Hk : k ∉ keys before).
    { rewrite Hload in Hnd. now apply NoDup_keys_middle in Hnd. }
    rewrite (_remove_from_queue_first video c before after k r Hload Hk);
      [|now rewrite Hv|now rewrite Hv]. cbn.
    split; [reflexivity|].
    rewrite <- (remove_middle before after k r) by assumption.
    rewrite <- Hload. now apply get_remove_eq.
  - intros Hnone. rewrite _remove_from_queue_none; [reflexivity|].
    unfold no_slot_holds in Hnone. now rewrite Hv.
Qed.

(** X6: cancelling a video always sends the cancel request. The slot mapping
    stays as it is when no slot holds an object with the fields of the
    video; otherwise one slot is freed, also when the video itself is in no
    slot: that the video holds no slot does not keep the mapping. *)
Theorem cancel_without_slot_only_sends
    (video : ref) (v : TgVideo) (c : TgClient) :
  heap c !! video = Some v ->
  let c' := snd (cancel_download_video transport video c) in
  sent c' = sent c ++ [cancelDownloadFile (file_id v)] /\
  (no_slot_holds c v -> _loading c' = _loading c) /\
  (~ no_slot_holds c v -> S (length (_loading c')) = length (_loading c)).
Proof.
  intros Hv c'.
  assert (Hc : c' = with_sent (sent c ++ [cancelDownloadFile (file_id v)])
                      (snd (_remove_from_queue video c))).
  { unfold c'. rewrite (cancel_download_video_run video v c Hv). cbn zeta.
    destruct (transport (sent c) (cancelDownloadFile (file_id v))); reflexivity. }
  rewrite Hc. cbn [sent _loading with_sent]. split; [reflexivity|]. split.
  - intros Hnone. rewrite _remove_from_queue_none; [reflexivity|].
    unfold no_slot_holds in Hnone. now rewrite Hv.
  - intros Hsome.
    destruct (slot_scan video v c Hv) as [Hnone|(k & r & Hfind & Hk & _)];
      [contradiction|].
    rewrite (_remove_from_queue_found video c k r Hfind). cbn.
    now apply length_remove.
Qed.

(** X7: a download followed by its cancellation leaves the slot mapping as it
    was before the download exactly when no slot held an object with the
    fields of the video, the video itself included; so it is whatever the
    transport answers to the two requests, a download on a full mapping
    included. That the video held no slot is not enough: with an equal
    object in a slot, the mapping is another one afterwards. *)
Theorem download_then_cancel_restores_slots
    (video : ref) (v : TgVideo) (c : TgClient) :
  heap c !! video = Some v ->
  (no_slot_holds c v <->
   _loading (snd (cancel_download_video transport video
                    (snd (download_video transport video c))))
     = _loading c).
Proof.
  intros Hv. rewrite cancel_download_video_loading.
  destruct (first_free (_loading c) (range 2 33)) as [i|] eqn:Hscan.
  - rewrite (download_video_reserved transport video v c i Hv Hscan). cbn zeta.
    set (c1 := with_sent _ (with_loading (set (_loading c) i video) c)).
    assert (Hfresh : i ∉ keys (_loading c)).
    { apply first_free_Some in Hscan as (_ & _ & _ & Hi & _).
      now apply contains_false_keys. }
    assert (Hset : _loading c1 = _loading c ++ [(i, video)]).
    { unfold c1. cbn. now apply set_fresh. }
    replace (snd match transport (sent c) (downloadFile (file_id v) i) with
                 | Failed error_info =>
                     (Raise (TgException ("cant downloadFile: " +:+ error_info)), c1)
                 | Updated _ => (Ret (Some i), c1)
                 end) with c1
      by (destruct (transport (sent c) (downloadFile (file_id v) i)); reflexivity).
    destruct (slot_scan video v c Hv) as [Hnone|(k & r & Hfind & Hk & Hsome)].
    + split; [intros _|intros _; exact Hnone].
      rewrite (_remove_from_queue_first video c1 (_loading c) [] i video);
        [cbn; now rewrite app_nil_r|exact Hset|exact Hfresh| |reflexivity].
      unfold c1. cbn. rewrite Hv. exact Hnone.
    + split; [intros Hnone; contradiction|intros Hsame; exfalso].
      assert (Hfind1 : find (fun kv => video_eq c1 (snd kv) video) (_loading c1)
                       = Some (k, r)).
      { rewrite Hset. now apply find_app_Some. }
      rewrite (_remove_from_queue_found video c1 k r Hfind1) in Hsame.
      cbn [snd _loading with_loading] in Hsame.
      assert (Hki : k <> i) by (intros ->; contradiction).
      pose proof (get_remove_ne (_loading c1) k i Hki) as Hget.
      rewrite Hsame in Hget. unfold c1 in Hget. cbn in Hget.
      rewrite get_set_eq in Hget.
      apply get_None_keys in Hfresh. congruence.
  - rewrite (download_video_full transport video c Hscan). cbn [snd].
    destruct (slot_scan video v c Hv) as [Hnone|(k & r & Hfind & Hk & Hsome)].
    + split; [intros _|intros _; exact Hnone].
      rewrite _remove_from_queue_none; [reflexivity|].
      unfold no_slot_holds in Hnone. now rewrite Hv.
    + split; [intros Hnone; contradiction|intros Hsame; exfalso].
      rewrite (_remove_from_queue_found video c k r Hfind) in Hsame. cbn in Hsame.
      apply length_remove in Hk. rewrite Hsame in Hk. lia.
Qed.
End Slots.

Section Catalog.
Variable transport : list Request -> Request -> Response.
Variable subscriber : callback -> TgVideo -> option exn.

(** X8: when all 31 slots are taken and one is released, the next download
    takes the slot just released and goes last in the order of the slots. *)
Theorem released_slot_is_taken_next
    (video video' : ref) (v' : TgVideo) (c : TgClient)
    (before after : dict Z ref) (k : Z) (r : ref) :
  _loading c = before ++ (k, r) :: after ->
  slots_in_range (_loading c) ->
  all_slots_taken (_loading c) ->
  Forall (fun kv => heap c !! snd kv <> heap c !! video) before ->
  heap c !! r = heap c !! video ->
  heap c !! video' = Some v' ->
  let c1 := snd (_remove_from_queue video c) in
  _loading (snd (download_video transport video' c1))
    = before ++ after ++ [(k, video')] /\
  fst (download_video transport video' c1)
    = match transport (sent c) (downloadFile (file_id v') k) with
      | Failed error_info => Raise (TgException ("cant downloadFile: " +:+ error_info))
      | Updated _ => Ret (Some k)
      end.
Proof.
  intros Hload [Hnd Hrange] Hfull Hbefore Hr Hv' c1.
  assert (Hk : k ∉ keys before).
  { rewrite Hload in Hnd. now apply NoDup_keys_middle in Hnd. }
  assert (Hc1 : c1 = with_loading (before ++ after) c).
  { unfold c1. now rewrite (_remove_from_queue_first video c before after k r). }
  assert (Hrm : before ++ after = remove (_loading c) k).
  { now rewrite Hload, remove_middle. }
  assert (Hkr : 2 <= k <= 32).
  { rewrite list.Forall_forall in Hrange. apply Hrange.
    rewrite Hload. unfold keys. rewrite map_app. apply elem_of_app. right. left. }
  assert (Hscan : first_free (_loading c1) (range 2 33) = Some k).
  { rewrite Hc1. cbn. rewrite Hrm. apply first_free_range_least; [lia| |].
    - unfold contains. now rewrite get_remove_eq.
    - intros j Hj. unfold contains. rewrite get_remove_ne by lia.
      apply Hfull. lia. }
  rewrite (download_video_reserved transport video' v' c1 k); [|now rewrite Hc1|assumption].
  cbn zeta. rewrite Hc1. cbn [sent with_loading _loading].
  assert (Hset : set (before ++ after) k video' = (before ++ after) ++ [(k, video')]).
  { apply set_fresh. rewrite Hrm. apply get_None_keys. now apply get_remove_eq. }
  destruct (transport (sent c) (downloadFile (file_id v') k)); cbn;
    rewrite Hset, <- app_assoc; auto.
Qed.

(** [delete_message], step by step. *)
Lemma delete_message_run (video : ref) (v : TgVideo) (c : TgClient) :
  heap c !! video = Some v ->
  let request := deleteMessages chat_id (message_id v :: default [] (album v)) in
  let c1 := with_sent (sent c ++ [request]) c in
  delete_message transport video c
    = match transport (sent c) request with
      | Failed error_info =>
          (Raise (TgException ("cant deleteMessages: " +:+ error_info)), c1)
      | Updated _ =>
          if contains (_videos c) (file_id v)
          then (Ret tt, with_videos (remove (_videos c) (file_id v)) c1)
          else (Raise KeyError, c1)
      end.
Proof.
  intros Hv request c1.
  assert (Hids : (let ids0 := [message_id v] in
                  match album v with
                  | Some ((_ :: _) as siblings) => ids0 ++ siblings
                  | _ => ids0
                  end) = message_id v :: default [] (album v)).
  { destruct (album v) as [[|x l]|]; reflexivity. }
  unfold delete_message, bind, deref. rewrite Hv. cbn zeta in Hids.
  rewrite Hids. fold request. unfold _call, send, bind. cbn. fold c1.
  destruct (transport (sent c) request) as [info|u]; cbn; [reflexivity|].
  destruct (contains (_videos c) (file_id v)); reflexivity.
Qed.

(** X9: deleting a video the catalog does not hold (any more) still sends
    the delete request; when the transport accepts it, a [KeyError] comes out
    of the removal from the catalog, which is left as it was. *)
Theorem delete_of_unknown_video_raises_after_request
    (video : ref) (v : TgVideo) (c : TgClient) (u : Update) :
  heap c !! video = Some v ->
  get (_videos c) (file_id v) = None ->
  transport (sent c) (deleteMessages chat_id (message_id v :: default [] (album v)))
    = Updated u ->
  delete_message transport video c
    = (Raise KeyError,
       with_sent
         (sent c ++ [deleteMessages chat_id (message_id v :: default [] (album v))]) c).
Proof.
  intros Hv Hnone Hok. rewrite (delete_message_run video v c Hv). cbn zeta.
  rewrite Hok. unfold contains. now rewrite Hnone.
Qed.

(** X10: once a video is deleted, the events the transport still sends for its
    file are ignored: nothing changes and no callback is called. *)
Theorem event_after_delete_is_ignored
    (video : ref) (v : TgVideo) (c : TgClient) (u : Update) (event : FileEvent) :
  heap c !! video = Some v ->
  get (_videos c) (file_id v) = Some video ->
  NoDup (keys (_videos c)) ->
  transport (sent c) (deleteMessages chat_id (message_id v :: default [] (album v)))
    = Updated u ->
  ev_id event = file_id v ->
  let c' := snd (delete_message transport video c) in
  _update_file_handler subscriber event c' = (Ret tt, c').
Proof.
  intros Hv Hcat Hnd Hok Hid c'.
  apply untracked_event_is_ignored. unfold c'.
  rewrite (delete_message_run video v c Hv). cbn zeta. rewrite Hok.
  unfold contains. rewrite Hcat. cbn. rewrite Hid. now apply get_remove_eq.
Qed.

(** *** What a page holds *)

Lemma collect_albums_from (album_id : string) (messages : list Message) :
  forall acc : dict string (list Z),
  default []
    (get (fold_left
            (fun albums message =>
               match album_of message with
               | None => albums
               | Some album_id =>
                   let albums :=
                     if contains albums album_id then albums
                     else set albums album_id [] in
                   match m_video message with
                   | Some _ => albums
                   | None =>
                       set albums album_id
                         (default [] (get albums album_id) ++ [m_id message])
                   end
               end) messages acc) album_id)
  = default [] (get acc album_id)
    ++ (if decide (album_id = "0") then [] else siblings album_id messages).
Proof.
  induction messages as [|m rest IH]; intros acc; cbn [fold_left siblings].
  - destruct (decide (album_id = "0")); now rewrite app_nil_r.
  - rewrite IH. clear IH. unfold album_of.
    destruct (decide (m_media_album_id m = "0")) as [Hzero|Hzero].
    + destruct (decide (album_id = "0")) as [Ha|Ha]; [reflexivity|].
      rewrite decide_False by congruence. reflexivity.
    + set (a := m_media_album_id m) in *.
      set (touched := if contains acc a then acc else set acc a []).
      assert (Htouched : forall b, default [] (get touched b) = default [] (get acc b)).
      { intros b. unfold touched, contains.
        destruct (get acc a) eqn:Hget; [reflexivity|].
        destruct (decide (a = b)) as [<-|Hne].
        - now rewrite get_set_eq, Hget.
        - now rewrite get_set_ne. }
      destruct (decide (a = album_id)) as [Heq|Hne].
      * subst album_id. destruct (decide (a = "0")); [contradiction|].
        destruct (m_video m); cbn zeta.
        -- now rewrite Htouched.
        -- rewrite get_set_eq. cbn. rewrite Htouched. now rewrite <- app_assoc.
      * destruct (m_video m); cbn zeta.
        -- now rewrite Htouched.
        -- rewrite get_set_ne by assumption. now rewrite Htouched.
Qed.

Lemma collect_albums_siblings (album_id : string) (messages : list Message) :
  album_id <> "0" ->
  default [] (get (collect_albums messages) album_id) = siblings album_id messages.
Proof.
  intros Hne. unfold collect_albums. rewrite collect_albums_from.
  now rewrite decide_False.
Qed.

Lemma page_entry_Some albums (messages : list Message) (fid : Z) (v : TgVideo) :
  page_entry albums messages fid = Some v ->
  exists message video,
    message ∈ messages /\ m_video message = Some video /\
    f_id (vd_video video) = fid /\ v = make_video albums message video.
Proof.
  induction messages as [|m rest IH]; cbn; [discriminate|].
  destruct (page_entry albums rest fid) as [v0|].
  - intros [= <-]. destruct (IH eq_refl) as (m0 & vd & Hin & Hrest).
    exists m0, vd. split; [now right | assumption].
  - destruct (m_video m) as [vd|] eqn:Hvd; [|discriminate].
    destruct (decide (f_id (vd_video vd) = fid)); [|discriminate].
    intros [= <-]. exists m, vd. split; [left | auto].
Qed.

Lemma page_entry_None albums (messages : list Message) (fid : Z) :
  page_entry albums messages fid = None ->
  forall message video,
    message ∈ messages -> m_video message = Some video ->
    f_id (vd_video video) <> fid.
Proof.
  induction messages as [|m rest IH]; cbn; intros Hnone m0 vd Hin Hvd.
  - inversion Hin.
  - destruct (page_entry albums rest fid) as [v0|] eqn:Hrest; [discriminate|].
    apply elem_of_cons in Hin as [->|Hin]; [|now apply (IH eq_refl m0 vd)].
    rewrite Hvd in Hnone. destruct (decide (f_id (vd_video vd) = fid)); congruence.
Qed.

(** The catalog [list_videos] leaves, read through the object store. *)
Lemma list_videos_catalog limit (c : TgClient) (messages : list Message) :
  transport (sent c) (get_chat_history chat_id limit None)
    = Updated (Messages messages) ->
  let c' := snd (list_videos transport limit c) in
  NoDup (keys (_videos c')) /\
  forall fid,
    catalog_fields c' fid = page_entry (collect_albums messages) messages fid.
Proof.
  intros Hresp c'.
  destruct (_fetch_page_messages transport limit None c messages Hresp)
    as (page & news & Hrun & Hnd & Hpage).
  assert (Hc' : c' = with_videos page
                       (with_heap (heap c ++ news)
                          (with_sent (sent c ++ [get_chat_history chat_id limit None]) c))).
  { unfold c', list_videos, bind. rewrite Hrun. reflexivity. }
  rewrite Hc'. cbn. split; [assumption|].
  intros fid. specialize (Hpage fid). unfold catalog_fields. cbn.
  destruct (page_entry (collect_albums messages) messages fid) as [v|].
  - destruct Hpage as (r & -> & _ & Hlook). exact Hlook.
  - now rewrite Hpage.
Qed.

(** X11: after [list_videos] the catalog is the page and nothing else: its
    file ids are distinct, a file id is known exactly when a message of the
    page carries a video with this id, and the fields shown for it are built
    from the last such message. What the catalog held before is dropped. *)
Theorem list_videos_catalog_is_the_page
    (limit : Z) (c : TgClient) (messages : list Message) :
  transport (sent c) (get_chat_history chat_id limit None)
    = Updated (Messages messages) ->
  let c' := snd (list_videos transport limit c) in
  NoDup (keys (_videos c')) /\
  (forall fid,
      catalog_fields c' fid = page_entry (collect_albums messages) messages fid) /\
  (forall fid,
      is_Some (catalog_fields c' fid) <->
      exists message video,
        message ∈ messages /\ m_video message = Some video /\
        f_id (vd_video video) = fid).
Proof.
  intros Hresp c'.
  destruct (list_videos_catalog limit c messages Hresp) as [Hnd Hpage].
  fold c' in Hnd, Hpage. split; [assumption|]. split; [assumption|].
  intros fid. rewrite Hpage. split.
  - intros [v Hv]. apply page_entry_Some in Hv as (m & vd & Hin & Hvd & Hfid & _).
    eauto.
  - intros (m & vd & Hin & Hvd & Hfid).
    destruct (page_entry (collect_albums messages) messages fid) as [v|] eqn:He;
      [eauto|].
    exfalso. now apply (page_entry_None _ _ _ He m vd Hin Hvd).
Qed.

(** X12: the album of a fetched video is the list of the message ids of all
    messages of the page that share its album id and carry no video, in page
    order, those that come after the video included; a video whose album id
    is "0" has no album. *)
Theorem fetched_album_collects_the_text_siblings
    (limit : Z) (c : TgClient) (messages : list Message) (fid : Z) (v : TgVideo) :
  transport (sent c) (get_chat_history chat_id limit None)
    = Updated (Messages messages) ->
  catalog_fields (snd (list_videos transport limit c)) fid = Some v ->
  exists message,
    message ∈ messages /\ message_id v = m_id message /\
    album v = if decide (m_media_album_id message = "0") then None
              else Some (siblings (m_media_album_id message) messages).
Proof.
  intros Hresp Hv.
  destruct (list_videos_catalog limit c messages Hresp) as [_ Hpage].
  rewrite Hpage in Hv.
  apply page_entry_Some in Hv as (m & vd & Hin & _ & _ & ->).
  exists m. split; [assumption|]. split; [reflexivity|].
  cbn. unfold album_of.
  destruct (decide (m_media_album_id m = "0")); [reflexivity|].
  now rewrite collect_albums_siblings.
Qed.
End Catalog.

Lemma keys_merge_extends {V} (b : dict Z V) :
  forall a : dict Z V, exists new, keys (merge a b) = keys a ++ new.
Proof.
  unfold merge. induction b as [|[k v] b IH]; intros a; cbn [fold_left fst snd].
  - exists []. now rewrite app_nil_r.
  - destruct (IH (set a k v)) as [new Hnew]. rewrite Hnew, keys_set.
    destruct (contains a k); [eauto|]. exists (k :: new). now rewrite <- app_assoc.
Qed.

Lemma list_remove_first (before rest : list callback) (cb : callback) :
  cb ∉ before -> list_remove (before ++ cb :: rest) cb = before ++ rest.
Proof.
  induction before as [|x before IH]; cbn; intros Hnot.
  - now rewrite decide_True.
  - apply not_elem_of_cons in Hnot as [Hne Hnot].
    rewrite decide_False by congruence. now rewrite IH.
Qed.

Section Refetch.
Variable transport : list Request -> Request -> Response.

Lemma _fetch_page_failed limit anchor (c : TgClient) (error_info : string) :
  transport (sent c) (get_chat_history chat_id limit anchor) = Failed error_info ->
  forall X (k : dict Z ref -> M X),
  bind (_fetch_page transport limit anchor) k c
    = (Raise (TgException ("cant wrap get_chat_history: " +:+ error_info)),
       with_sent (sent c ++ [get_chat_history chat_id limit anchor]) c).
Proof.
  intros Hfail X k. unfold bind at 1. unfold _fetch_page, _call_wrap, send, bind.
  now rewrite Hfail.
Qed.

(** X13: a fetch the transport refuses raises a [TgException] with the
    transport's error information and leaves the catalog, the objects and the
    slot mapping as they were, for [list_videos] as for [load_next]; the one
    request is all that happened. *)
Theorem refused_fetch_leaves_the_catalog
    (f : refetch) (c : TgClient) (error_info : string) :
  (forall limit anchor,
      transport (sent c) (get_chat_history chat_id limit anchor)
        = Failed error_info) ->
  Forall (fun r => is_Some (heap c !! r)) (values (_videos c)) ->
  let c' := apply_refetch transport f c in
  let e := TgException ("cant wrap get_chat_history: " +:+ error_info) in
  match f with
  | ListVideos limit => fst (list_videos transport limit c) = Raise e
  | LoadNext limit => fst (load_next transport limit c) = Raise e
  end /\
  _videos c' = _videos c /\ heap c' = heap c /\ _loading c' = _loading c /\
  _download_callbacks c' = _download_callbacks c /\
  length (sent c') = S (length (sent c)).
Proof.
  intros Hfail Hlive c' e.
  assert (Hlist : forall limit,
             list_videos transport limit c
             = (Raise e, with_sent (sent c ++ [get_chat_history chat_id limit None]) c)).
  { intros limit. unfold list_videos.
    now rewrite (_fetch_page_failed limit None c error_info (Hfail limit None)). }
  assert (Hrun : exists anchor limit',
             match f with
             | ListVideos limit => fst (list_videos transport limit c) = Raise e
             | LoadNext limit => fst (load_next transport limit c) = Raise e
             end /\
             c' = with_sent (sent c ++ [get_chat_history chat_id limit' anchor]) c).
  { unfold c'. destruct f as [limit|limit]; cbn [apply_refetch].
    - exists None, limit. now rewrite Hlist.
    - destruct (values (_videos c)) as [|r0 rs] eqn:Hvalues.
      + exists None, 100.
        assert (Hnext : load_next transport limit c
                        = (Raise e, with_sent (sent c ++ [get_chat_history chat_id 100 None]) c)).
        { unfold load_next, videos, bind at 1 2, read, ret. rewrite Hvalues.
          unfold bind, list_videos_limit. now rewrite Hlist. }
        now rewrite Hnext.
      + destruct (exists_last (l := r0 :: rs)) as (rest & last & Hsplit); [discriminate|].
        rewrite Hsplit in Hvalues, Hlive.
        apply Forall_app in Hlive as [_ Hlast].
        apply list.Forall_cons in Hlast as [[v_last Hlast] _].
        exists (Some (message_id v_last)), limit.
        assert (Hnext : load_next transport limit c
                        = (Raise e,
                           with_sent
                             (sent c ++ [get_chat_history chat_id limit
                                           (Some (message_id v_last))]) c)).
        { unfold load_next, videos, bind at 1 2, read, ret. rewrite Hvalues.
          destruct (rest ++ [last]) as [|x xs] eqn:Hvs.
          { destruct rest; discriminate. }
          rewrite <- Hvs, index_last. unfold bind at 1. unfold deref. rewrite Hlast.
          cbn zeta.
          now rewrite (_fetch_page_failed limit (Some (message_id v_last)) c error_info
                         (Hfail limit _)). }
        now rewrite Hnext. }
  destruct Hrun as (anchor & limit' & Hres & ->). split; [exact Hres|]. cbn.
  repeat split. rewrite length_app. cbn. lia.
Qed.

(** X14: [load_next] on a catalog that is not empty keeps what the page does
    not mention: the entries of the file ids the page does not carry are the
    same objects as before, the file ids known before keep their order and
    the new ones follow them, and no object built before is changed. *)
Theorem load_next_keeps_older_entries
    (limit : Z) (c : TgClient) (messages : list Message) (rest : list ref)
    (last : ref) (v_last : TgVideo) :
  values (_videos c) = rest ++ [last] ->
  heap c !! last = Some v_last ->
  transport (sent c) (get_chat_history chat_id limit (Some (message_id v_last)))
    = Updated (Messages messages) ->
  let c' := snd (load_next transport limit c) in
  (forall fid,
      page_entry (collect_albums messages) messages fid = None ->
      get (_videos c') fid = get (_videos c) fid) /\
  (exists new, keys (_videos c') = keys (_videos c) ++ new) /\
  (forall r v, heap c !! r = Some v -> heap c' !! r = Some v).
Proof.
  intros Hvalues Hlast Hresp c'.
  destruct (_fetch_page_messages transport limit (Some (message_id v_last)) c messages Hresp)
    as (page & news & Hrun & Hnd & Hpage).
  assert (Hc' : c' = with_videos (merge (_videos c) page)
                       (with_heap (heap c ++ news)
                          (with_sent
                             (sent c ++ [get_chat_history chat_id limit
                                           (Some (message_id v_last))]) c))).
  { unfold c', load_next, videos, bind at 1 2, read, ret. rewrite Hvalues.
    destruct (rest ++ [last]) as [|x xs] eqn:Hvs.
    { destruct rest; discriminate. }
    rewrite <- Hvs, index_last. unfold bind at 1. unfold deref. rewrite Hlast.
    cbn zeta. unfold bind. rewrite Hrun. reflexivity. }
  rewrite Hc'. cbn. split; [|split].
  - intros fid Hnone. specialize (Hpage fid). rewrite Hnone in Hpage.
    now rewrite get_merge, Hpage.
  - apply keys_merge_extends.
  - intros r v Hv. rewrite lookup_app_l; [assumption|]. eapply lookup_lt_Some, Hv.
Qed.
End Refetch.

(** X15: subscribing a callback and unsubscribing it again restores the
    subscriber list when the callback was not subscribed before. When it
    was, the pair removes its older subscription and keeps the new one: the
    callback moves to the end of the calling order. *)
Theorem subscribe_then_unsubscribe
    (cb : callback) (before after : list callback) (c : TgClient) :
  cb ∉ before ->
  (add_download_callback cb ;; remove_download_callback cb)
    (with_download_callbacks before c)
    = (Ret tt, with_download_callbacks before c) /\
  (add_download_callback cb ;; remove_download_callback cb)
    (with_download_callbacks (before ++ cb :: after) c)
    = (Ret tt, with_download_callbacks (before ++ after ++ [cb]) c).
Proof.
  intros Hnot.
  unfold add_download_callback, remove_download_callback, bind, modify, read, ret.
  cbn. split.
  - rewrite bool_decide_eq_true_2 by (apply elem_of_app; right; left).
    unfold with_download_callbacks. cbn.
    rewrite (list_remove_first before [] cb Hnot). now rewrite app_nil_r.
  - rewrite bool_decide_eq_true_2
      by (apply elem_of_app; left; apply elem_of_app; right; left).
    unfold with_download_callbacks. cbn.
    rewrite <- app_assoc. cbn.
    now rewrite (list_remove_first before (after ++ [cb]) cb Hnot).
Qed.

(** * Further properties of the scroll window *)

Section WindowMore.
Import Tui.
Context {A : Type} `{EqDecision A}.
Implicit Types (items : list A) (h : Z) (self : ScrollableListMixin).

(** X16: on an empty list no call raises and the offset stays where it was.
    [key_home] and [key_end] leave the state as it is: a sequence without
    [_scroll] returns the state it started from. [_scroll] takes the focus
    away: after a sequence with a [_scroll] in it there is no focus, and a
    list without focus stays without. *)
Theorem empty_list_keeps_offset h (ks : list call) self :
  exists self',
    run (@nil A) h ks self = Ret self' /\
    render_offset self' = render_offset self /\
    ((forall delta, Scroll delta ∉ ks) -> self' = self) /\
    ((exists delta, Scroll delta ∈ ks) -> focused_index self' = None) /\
    (focused_index self = None -> focused_index self' = None).
Proof.
  revert self. induction ks as [|k ks IH]; intros self; cbn [run].
  - exists self. repeat split; [|trivial].
    intros [delta Hin]. inversion Hin.
  - destruct k as [delta| |]; cbn [step].
    + unfold _scroll.
      destruct (IH (mkScrollableListMixin None (render_offset self)))
        as (self' & -> & Ho & _ & _ & Hnone).
      exists self'. split; [reflexivity|]. split; [exact Ho|].
      split; [|split; intros _; now apply Hnone].
      intros Hno. exfalso. apply (Hno delta). left.
    + unfold key_home.
      destruct (IH self) as (self' & -> & Ho & Hsame & Hscroll & Hnone).
      exists self'. split; [reflexivity|]. split; [exact Ho|].
      split; [|split; [|exact Hnone]].
      * intros Hno. apply Hsame. intros delta Hin. apply (Hno delta). now right.
      * intros [delta Hin]. apply Hscroll. exists delta.
        apply elem_of_cons in Hin as [Hin|Hin]; [discriminate | exact Hin].
    + unfold key_end.
      destruct (IH self) as (self' & -> & Ho & Hsame & Hscroll & Hnone).
      exists self'. split; [reflexivity|]. split; [exact Ho|].
      split; [|split; [|exact Hnone]].
      * intros Hno. apply Hsame. intros delta Hin. apply (Hno delta). now right.
      * intros [delta Hin]. apply Hscroll. exists delta.
        apply elem_of_cons in Hin as [Hin|Hin]; [discriminate | exact Hin].
Qed.

Lemma _scroll_stale items h (delta i : Z) self :
  (1 <= length items)%nat ->
  focused_index self = Some i -> len items <= i ->
  _scroll items h delta self = Ret (mkScrollableListMixin (Some 0) 0).
Proof.
  intros Hitems Hi Hlen. unfold _scroll, focused_item. rewrite Hi.
  replace (len items <=? i) with true by (symmetry; apply Z.leb_le; lia).
  destruct items; [cbn in Hitems; lia | reflexivity].
Qed.

(** X17: a focus that points at nothing, because there is none (initially or
    after [key_escape]) or because the list became shorter than the focused
    index, makes [_scroll] go to the first item with offset 0, whatever the
    delta. *)
Theorem stale_focus_scrolls_to_top items h (delta : Z) self :
  (1 <= length items)%nat ->
  (focused_index self = None \/
   exists i, focused_index self = Some i /\ len items <= i) ->
  _scroll items h delta self = Ret (mkScrollableListMixin (Some 0) 0) /\
  _scroll items h delta (key_escape self) = Ret (mkScrollableListMixin (Some 0) 0).
Proof.
  intros Hitems Hstale. split.
  - destruct Hstale as [Hnone|(i & Hi & Hlen)].
    + now apply _scroll_unfocused.
    + now apply (_scroll_stale items h delta i).
  - now apply _scroll_unfocused.
Qed.

(** X18: [_scroll(0)], which the widgets call after they removed an item,
    changes nothing when the focus is still on an item the window shows. *)
Theorem scroll_by_zero_keeps_a_valid_focus items h (i : Z) self :
  focused_index self = Some i ->
  in_window (len items) h self ->
  _scroll items h 0 self = Ret self.
Proof.
  intros Hi [Ho Hw]. rewrite Hi in Hw. destruct Hw as [Hoi Hin].
  rewrite (_scroll_focused items h 0 i self Hi) by lia.
  assert (Hsame : (len items + i + 0) mod len items = i).
  { rewrite Z.add_0_r.
    replace (len items + i) with (i + 1 * len items) by lia.
    rewrite Z_mod_plus_full. apply Z.mod_small. lia. }
  rewrite Hsame. unfold _check_offset.
  destruct (Z.ltb_spec (render_offset self + h - 1) i); [lia|].
  destruct (Z.ltb_spec i (render_offset self)); [lia|].
  destruct self as [f o]. cbn in *. now subst f.
Qed.

(** X19: scrolling by [delta] and then by [-delta] brings the focus back to
    the item it was on ([key_down] then [key_up], [key_pagedown] then
    [key_pageup]), wrap-around included. *)
Theorem scroll_there_and_back items h (delta i : Z) self :
  focused_index self = Some i ->
  0 <= i < len items ->
  exists self1 self2,
    _scroll items h delta self = Ret self1 /\
    _scroll items h (- delta) self1 = Ret self2 /\
    focused_index self2 = Some i.
Proof.
  intros Hi Hrange.
  assert (Hmod : 0 <= (len items + i + delta) mod len items < len items)
    by (apply Z.mod_pos_bound; lia).
  eexists _, _. split; [exact (_scroll_focused items h delta i self Hi Hrange)|].
  split.
  { exact (_scroll_focused items h (- delta) ((len items + i + delta) mod len items)
             (mkScrollableListMixin (Some ((len items + i + delta) mod len items)) _)
             eq_refl Hmod). }
  cbn. f_equal.
  replace (len items + (len items + i + delta) mod len items + - delta)
    with ((len items + i + delta) mod len items + (len items - delta)) by lia.
  rewrite Z.add_mod_idemp_l by lia.
  replace (len items + i + delta + (len items - delta))
    with (i + 2 * len items) by lia.
  rewrite Z_mod_plus_full. apply Z.mod_small. lia.
Qed.

(** X20: at the ends the focus wraps and the window follows: [key_down] on the
    last item goes to the first item with offset 0, [key_up] on the first
    item goes to the last one and shows it in the last row when the list is
    longer than the window. *)
Theorem focus_wraps_at_the_ends items h (o : Z) :
  (1 <= length items)%nat ->
  1 <= h ->
  0 <= o ->
  key_down items h (mkScrollableListMixin (Some (len items - 1)) o)
    = Ret (mkScrollableListMixin (Some 0) 0) /\
  key_up items h (mkScrollableListMixin (Some 0) 0)
    = Ret (mkScrollableListMixin (Some (len items - 1)) (Z.max 0 (len items - h))).
Proof.
  intros Hitems Hh Ho. pose proof (len_positive items Hitems) as Hn.
  unfold key_down, key_up. split.
  - rewrite (_scroll_focused items h 1 (len items - 1)
               (mkScrollableListMixin (Some (len items - 1)) o) eq_refl) by lia.
    replace (len items + (len items - 1) + 1) with (0 + 2 * len items) by lia.
    rewrite Z_mod_plus_full, Z.mod_0_l by lia.
    unfold _check_offset. cbn [render_offset].
    replace (o + h - 1 <? 0) with false by (symmetry; apply Z.ltb_ge; lia).
    destruct (Z.ltb_spec 0 o); cbn; [reflexivity|].
    now replace o with 0 by lia.
  - rewrite (_scroll_focused items h (-1) 0
               (mkScrollableListMixin (Some 0) 0) eq_refl) by lia.
    replace (len items + 0 + -1) with (len items - 1) by lia.
    rewrite Z.mod_small by lia.
    unfold _check_offset. cbn [render_offset].
    destruct (Z.ltb_spec (0 + h - 1) (len items - 1)); cbn.
    + f_equal. f_equal. lia.
    + replace (len items - 1 <? 0) with false by (symmetry; apply Z.ltb_ge; lia).
      cbn. f_equal. f_equal. lia.
Qed.

(** X21: in a widget whose body has [height - 2] rows (the download list, the
    filter list) a click keeps the window: a click on a border row changes
    nothing, a click on a body row focuses the item shown there if there is
    one, and the offset never moves. *)
Theorem click_keeps_the_window items (height y : Z) self :
  in_window (len items) (height - 2) self ->
  0 <= y <= height - 1 ->
  let self' := on_click items height y self in
  in_window (len items) (height - 2) self' /\
  render_offset self' = render_offset self /\
  (y = 0 \/ y = height - 1 \/ len items <= y + render_offset self - 1 ->
   self' = self) /\
  (0 < y < height - 1 -> y + render_offset self - 1 < len items ->
   focused_index self' = Some (y + render_offset self - 1)).
Proof.
  intros [Ho Hw] Hy self'. unfold self', on_click.
  destruct (bool_decide_reflect (y = 0)) as [Hy0|Hy0]; cbn [orb].
  { repeat split; try assumption; intros; lia. }
  destruct (bool_decide_reflect (y = height - 1)) as [Hy1|Hy1]; cbn [orb].
  { repeat split; try assumption; intros; lia. }
  destruct (Z.ltb_spec (y + render_offset self - 1) (len items)).
  - split; [split; cbn; lia|]. split; [reflexivity|]. split; [intros; lia|].
    reflexivity.
  - split; [split; assumption|]. split; [reflexivity|]. split; [reflexivity|].
    intros; lia.
Qed.

(** X22: in a widget whose body has [height - 3] rows (the video list) a click
    on the last row inside the border focuses the item at
    [offset + available_height], one past the last item the window shows. *)
Theorem click_on_last_row_leaves_the_window items (height : Z) self :
  1 <= height - 3 ->
  0 <= render_offset self ->
  render_offset self + (height - 3) < len items ->
  let self' := on_click items height (height - 2) self in
  focused_index self' = Some (render_offset self + (height - 3)) /\
  render_offset self' = render_offset self /\
  ~ in_window (len items) (height - 3) self'.
Proof.
  intros Hh Ho Hlen self'. unfold self', on_click.
  rewrite bool_decide_eq_false_2 by lia. rewrite bool_decide_eq_false_2 by lia.
  cbn [orb].
  replace (height - 2 + render_offset self - 1 <? len items) with true
    by (symmetry; apply Z.ltb_lt; lia).
  cbn. split; [f_equal; lia|]. split; [reflexivity|].
  intros [_ Hw]. cbn in Hw. lia.
Qed.
End WindowMore.

(** * Properties of the widgets *)

Lemma index_middle {X} (l1 l2 : list X) (x : X) :
  index (l1 ++ x :: l2) (Z.of_nat (length l1)) = Ret x.
Proof.
  unfold index. rewrite length_app. cbn [length].
  replace (Z.of_nat (length l1) <? 0) with false by (symmetry; apply Z.ltb_ge; lia).
  replace (0 <=? Z.of_nat (length l1)) with true by (symmetry; apply Z.leb_le; lia).
  replace (Z.of_nat (length l1) <? Z.of_nat (length l1 + S (length l2))) with true
    by (symmetry; apply Z.ltb_lt; lia).
  cbn. rewrite Nat2Z.id, lookup_app_r by lia. now rewrite Nat.sub_diag.
Qed.

Lemma index_at {X} (l : list X) (i : nat) (x : X) :
  l !! i = Some x -> index l (Z.of_nat i) = Ret x.
Proof.
  intros Hx. pose proof (lookup_lt_Some _ _ _ Hx) as Hlt. unfold index.
  replace (Z.of_nat i <? 0) with false by (symmetry; apply Z.ltb_ge; lia).
  replace (0 <=? Z.of_nat i) with true by (symmetry; apply Z.leb_le; lia).
  replace (Z.of_nat i <? Z.of_nat (length l)) with true
    by (symmetry; apply Z.ltb_lt; lia).
  cbn. now rewrite Nat2Z.id, Hx.
Qed.

Section VideoListFacts.
Import Tui Widgets.
Variable transport : list Request -> Request -> Response.
Variable video_filter : TgVideo -> bool.
Variable h : Z.

Lemma items_split (c : TgClient) (before after : dict Z ref) (k : Z) (item : ref)
      (v : TgVideo) :
  _videos c = before ++ (k, item) :: after ->
  heap c !! item = Some v ->
  video_filter v = true ->
  items video_filter c
    = items video_filter (with_videos before c)
      ++ item :: items video_filter (with_videos after c).
Proof.
  intros Hvideos Hv Hshown. unfold items, values. cbn [_videos heap with_videos].
  rewrite Hvideos, map_app, List.filter_app. cbn [map snd List.filter].
  now rewrite Hv, Hshown.
Qed.

(** X23: the [d] key of the video list on a focused video that the transport
    lets delete: the video leaves the catalog and the list. When videos
    follow it in the list, the focused index stays, so that the focus is on
    the video that followed, and [_check_offset] moves the offset as far as
    it takes to show that index: focus and offset both stay when the focus
    was in the window, and the offset moves when it was not. When the video
    was the last of several, the focus jumps to the first video with offset
    0; when it was the only one, the focus is taken away. *)
Theorem delete_key_moves_the_focus
    (c : TgClient) (self : ScrollableListMixin) (before after : dict Z ref)
    (item : ref) (v : TgVideo) (u : Update) :
  _videos c = before ++ (file_id v, item) :: after ->
  NoDup (keys (_videos c)) ->
  heap c !! item = Some v ->
  video_filter v = true ->
  focused_index self = Some (len (items video_filter (with_videos before c))) ->
  transport (sent c) (deleteMessages chat_id (message_id v :: default [] (album v)))
    = Updated u ->
  let shown_before := items video_filter (with_videos before c) in
  let shown_after := items video_filter (with_videos after c) in
  let c' :=
    with_videos (before ++ after)
      (with_sent
         (sent c ++ [deleteMessages chat_id (message_id v :: default [] (album v))]) c) in
  let self' :=
    match shown_after, shown_before with
    | _ :: _, _ =>
        mkScrollableListMixin (Some (len shown_before))
          (render_offset (_check_offset h (len shown_before) self))
    | [], _ :: _ => mkScrollableListMixin (Some 0) 0
    | [], [] => mkScrollableListMixin None (render_offset self)
    end in
  key_d transport video_filter h (c, self) = (Ret tt, (c', self')) /\
  items video_filter c' = shown_before ++ shown_after /\
  (in_window (len (items video_filter c)) h self -> shown_after <> [] ->
   self' = self).
Proof.
  intros Hvideos Hnd Hv Hshown Hfocus Hok shown_before shown_after c' self'.
  pose proof (items_split c before after (file_id v) item v Hvideos Hv Hshown) as Hitems.
  fold shown_before shown_after in Hitems, Hfocus.
  assert (Hitems' : items video_filter c' = shown_before ++ shown_after).
  { unfold c', shown_before, shown_after, items, values. cbn [_videos heap with_videos with_sent].
    now rewrite map_app, List.filter_app. }
  split; [|split; [exact Hitems'|]].
  2: { intros [Ho Hw] Hafter. rewrite Hfocus, Hitems in Hw. destruct Hw as [Hoi Hi].
       unfold self'. destruct shown_after as [|a shown_after]; [congruence|].
       unfold _check_offset.
       replace (render_offset self + h - 1 <? len shown_before) with false
         by (symmetry; apply Z.ltb_ge; lia).
       replace (len shown_before <? render_offset self) with false
         by (symmetry; apply Z.ltb_ge; lia).
       destruct self as [f o]. cbn in *. now subst f. }
  unfold self'. clear self'.
  unfold key_d. cbn [fst snd]. unfold focused_item. rewrite Hfocus, Hitems.
  replace (len (shown_before ++ item :: shown_after) <=? len shown_before) with false
    by (symmetry; apply Z.leb_gt; unfold len; rewrite length_app; cbn; lia).
  unfold len at 1. rewrite index_middle.
  unfold _delete. cbn [fst snd].
  rewrite (delete_message_run transport item v c Hv). cbn zeta. rewrite Hok.
  assert (Hin : contains (_videos c) (file_id v) = true).
  { apply contains_keys. rewrite Hvideos. unfold keys. rewrite map_app.
    apply elem_of_app. right. left. }
  rewrite Hin, Hvideos, remove_middle
    by (rewrite Hvideos in Hnd; now apply NoDup_keys_middle in Hnd).
  fold c'. rewrite Hitems'.
  destruct shown_after as [|a shown_after].
  - rewrite app_nil_r. destruct shown_before as [|b shown_before].
    + reflexivity.
    + rewrite (_scroll_stale (b :: shown_before) h 0 (len (b :: shown_before)) self);
        [reflexivity|cbn; lia|assumption|lia].
  - assert (Hi : 0 <= len shown_before < len (shown_before ++ a :: shown_after)).
    { unfold len. rewrite length_app. cbn [length]. lia. }
    rewrite (_scroll_focused (shown_before ++ a :: shown_after) h 0
               (len shown_before) self Hfocus Hi).
    replace ((len (shown_before ++ a :: shown_after) + len shown_before + 0)
               mod len (shown_before ++ a :: shown_after))
      with (len shown_before); [reflexivity|].
    rewrite Z.add_0_r.
    replace (len (shown_before ++ a :: shown_after) + len shown_before)
      with (len shown_before + 1 * len (shown_before ++ a :: shown_after)) by lia.
    rewrite Z_mod_plus_full. symmetry. apply Z.mod_small. lia.
Qed.

(** X24: when the transport refuses the deletion, the [d] key raises the
    [TgException] and leaves the catalog, the list and the focus as they
    were. *)
Theorem refused_delete_key_changes_nothing
    (c : TgClient) (self : ScrollableListMixin) (i : nat) (item : ref)
    (v : TgVideo) (error_info : string) :
  focused_index self = Some (Z.of_nat i) ->
  items video_filter c !! i = Some item ->
  heap c !! item = Some v ->
  transport (sent c) (deleteMessages chat_id (message_id v :: default [] (album v)))
    = Failed error_info ->
  key_d transport video_filter h (c, self)
    = (Raise (TgException ("cant deleteMessages: " +:+ error_info)),
       (with_sent
          (sent c ++ [deleteMessages chat_id (message_id v :: default [] (album v))]) c,
        self)).
Proof.
  intros Hfocus Hitem Hv Hfail.
  pose proof (lookup_lt_Some _ _ _ Hitem) as Hlt.
  unfold key_d. cbn [fst snd]. unfold focused_item. rewrite Hfocus.
  replace (len (items video_filter c) <=? Z.of_nat i) with false
    by (symmetry; apply Z.leb_gt; unfold len; lia).
  rewrite (index_at _ i item Hitem). unfold _delete. cbn [fst snd].
  rewrite (delete_message_run transport item v c Hv). cbn zeta. now rewrite Hfail.
Qed.
End VideoListFacts.

Section MyAppFacts.
Import Widgets.
Context {W : Type} `{EqDecision W}.
Implicit Types (focusables : list W) (app : MyApp W).

Lemma list_index_lookup focusables (i : nat) (w : W) :
  NoDup focusables -> focusables !! i = Some w ->
  list_index focusables w = Z.of_nat i.
Proof.
  revert i. induction focusables as [|y l IH]; intros i Hnd Hi; [discriminate|].
  apply list.NoDup_cons in Hnd as [Hy Hnd]. cbn [list_index].
  destruct i as [|i]; cbn in Hi.
  - injection Hi as ->. now rewrite decide_True.
  - rewrite decide_False.
    + rewrite (IH i Hnd Hi). lia.
    + intros ->. apply Hy. apply list_elem_of_lookup. eauto.
Qed.

Lemma action_next_tab_step focusables (i : nat) (w : W) :
  NoDup focusables -> focusables !! i = Some w ->
  exists w',
    action_next_tab focusables (mkMyApp true (Some w)) = Ret (mkMyApp true (Some w')) /\
    focusables !! Z.to_nat ((Z.of_nat i + 1) mod Z.of_nat (length focusables))
      = Some w'.
Proof.
  intros Hnd Hi. pose proof (lookup_lt_Some _ _ _ Hi) as Hlt.
  assert (Hmod : 0 <= (Z.of_nat i + 1) mod Z.of_nat (length focusables)
                 < Z.of_nat (length focusables)) by (apply Z.mod_pos_bound; lia).
  destruct (lookup_lt_is_Some_2 focusables
              (Z.to_nat ((Z.of_nat i + 1) mod Z.of_nat (length focusables))))
    as [w' Hw']; [lia|].
  exists w'. split; [|exact Hw'].
  unfold action_next_tab. cbn [main_page_visible focused negb].
  rewrite bool_decide_eq_true_2 by (apply list_elem_of_lookup; eauto).
  cbn [negb]. rewrite (list_index_lookup focusables i w Hnd Hi).
  rewrite <- (Z2Nat.id ((Z.of_nat i + 1) mod Z.of_nat (length focusables))) at 1 by lia.
  now rewrite (index_at _ _ w' Hw').
Qed.

(** X25: the tab key goes round the focusable widgets: from the widget at
    position [i], [k] presses lead to the widget at position
    [(i + k) mod n], so that [n] presses lead back to the same widget. A
    focus outside the focusable widgets, or none, leads to the first one, and
    nothing happens while the main page is hidden. *)
Theorem tab_goes_round focusables (i : nat) (w : W) (k : nat) :
  NoDup focusables ->
  focusables !! i = Some w ->
  (exists w',
      tabs focusables k (mkMyApp true (Some w)) = Ret (mkMyApp true (Some w')) /\
      focusables !! Z.to_nat ((Z.of_nat i + Z.of_nat k) mod Z.of_nat (length focusables))
        = Some w') /\
  tabs focusables (length focusables) (mkMyApp true (Some w))
    = Ret (mkMyApp true (Some w)) /\
  (forall w0, w0 ∉ focusables ->
      action_next_tab focusables (mkMyApp true (Some w0))
        = Ret (mkMyApp true (focusables !! 0%nat)) /\
      action_next_tab focusables (mkMyApp true None)
        = Ret (mkMyApp true (focusables !! 0%nat))) /\
  (forall app, main_page_visible app = false ->
      action_next_tab focusables app = Ret app).
Proof.
  intros Hnd Hi. pose proof (lookup_lt_Some _ _ _ Hi) as Hlt.
  assert (Hgen : forall k i w, focusables !! i = Some w ->
            exists w',
              tabs focusables k (mkMyApp true (Some w)) = Ret (mkMyApp true (Some w')) /\
              focusables !! Z.to_nat ((Z.of_nat i + Z.of_nat k)
                                        mod Z.of_nat (length focusables)) = Some w').
  { clear i w k Hi Hlt. induction k as [|k IH]; intros i w Hi.
    - exists w. split; [reflexivity|]. pose proof (lookup_lt_Some _ _ _ Hi).
      rewrite Z.add_0_r, Z.mod_small, Nat2Z.id by lia. exact Hi.
    - pose proof (lookup_lt_Some _ _ _ Hi) as Hlt.
      destruct (action_next_tab_step focusables i w Hnd Hi) as (w1 & Hstep & Hw1).
      destruct (IH _ w1 Hw1) as (w' & Hrun & Hw').
      exists w'. cbn [tabs]. rewrite Hstep. split; [exact Hrun|].
      rewrite Z2Nat.id in Hw' by (apply Z.mod_pos_bound; lia).
      rewrite Z.add_mod_idemp_l in Hw' by lia.
      now replace (Z.of_nat i + Z.of_nat (S k)) with (Z.of_nat i + 1 + Z.of_nat k) by lia. }
  split; [now apply Hgen|]. split; [|split].
  - destruct (Hgen (length focusables) i w Hi) as (w' & -> & Hw').
    replace (Z.of_nat i + Z.of_nat (length focusables))
      with (Z.of_nat i + 1 * Z.of_nat (length focusables)) in Hw' by lia.
    rewrite Z_mod_plus_full, Z.mod_small, Nat2Z.id in Hw' by lia. congruence.
  - assert (Hfirst : match index focusables 0 with
                     | Ret w1 => Ret (set_focus w1 (mkMyApp true (Some w)))
                     | Raise e => Raise e
                     end = Ret (mkMyApp true (focusables !! 0%nat))).
    { destruct focusables as [|x l]; [discriminate|]. reflexivity. }
    intros w0 Hw0. unfold action_next_tab. cbn [main_page_visible focused negb].
    rewrite bool_decide_eq_false_2 by assumption. cbn [negb].
    unfold set_focus in *. cbn [main_page_visible] in *. auto.
  - intros app Hhidden. unfold action_next_tab. now rewrite Hhidden.
Qed.
End MyAppFacts.

Lemma length_append_char (s : string) (c : Ascii.ascii) :
  String.length (s +:+ String c EmptyString) = S (String.length s).
Proof.
  induction s as [|x s IH]; [reflexivity|].
  change (S (String.length (s +:+ String c EmptyString)) = S (S (String.length s))).
  now rewrite IH.
Qed.

Lemma length_drop_last (s : string) :
  (String.length (Widgets.drop_last s) <= String.length s)%nat.
Proof.
  induction s as [|x s IH]; cbn; [lia|].
  destruct s as [|y s]; cbn in *; lia.
Qed.

Lemma drop_last_append_char (s : string) (c : Ascii.ascii) :
  Widgets.drop_last (s +:+ String c EmptyString) = s.
Proof.
  induction s as [|x s IH]; [reflexivity|].
  change (String x s +:+ String c EmptyString)
    with (String x (s +:+ String c EmptyString)).
  cbn [Widgets.drop_last]. rewrite IH. destruct s; reflexivity.
Qed.

Section VideoFilterFacts.
Import Tui Widgets.
Variable h : Z.

Lemma step_focus_not_negative {X} `{EqDecision X} (items : list X) (k : call)
      (self : ScrollableListMixin) :
  focus_not_negative self ->
  exists self', step items h k self = Ret self' /\ focus_not_negative self'.
Proof.
  intros Hfocus. destruct items as [|x l] eqn:Hitems.
  - destruct k; cbn; eexists; (split; [reflexivity|]); cbn; auto.
  - rewrite <- Hitems.
    assert (Hne : (1 <= length items)%nat) by (rewrite Hitems; cbn; lia).
    pose proof (len_positive items Hne) as Hn.
    destruct k as [delta| |]; cbn [step].
    + destruct (focused_index self) as [i|] eqn:Hi.
      * unfold focus_not_negative in Hfocus. rewrite Hi in Hfocus.
        destruct (Z.le_gt_cases (len items) i) as [Hge|Hlt].
        -- rewrite (_scroll_stale items h delta i self Hne Hi Hge).
           eexists. split; [reflexivity|]. cbn. lia.
        -- rewrite (_scroll_focused items h delta i self Hi) by lia.
           eexists. split; [reflexivity|]. cbn.
           apply Z.mod_pos_bound. lia.
      * rewrite (_scroll_unfocused items h delta self Hne Hi).
        eexists. split; [reflexivity|]. cbn. lia.
    + unfold key_home. rewrite Hitems.
      eexists. split; [reflexivity|]. cbn. lia.
    + unfold key_end. rewrite Hitems. rewrite <- Hitems.
      eexists. split; [reflexivity|]. cbn. lia.
Qed.

Lemma values_short_set (d : dict string attrs) (name : string) (a : attrs) :
  values_short d ->
  (String.length (snd (fst a)) <= 5)%nat ->
  values_short (set d name a).
Proof.
  unfold values_short. intros Hd Ha.
  induction Hd as [|[n0 a0] d H0 Hd IH]; cbn.
  - constructor; [exact Ha | constructor].
  - destruct (decide (n0 = name)); constructor; auto.
Qed.

Lemma on_focused_attrs_short (f : attrs -> attrs) (w : VideoFilter) :
  (forall a, (String.length (snd (fst a)) <= 5)%nat ->
             (String.length (snd (fst (f a))) <= 5)%nat) ->
  values_short (filters w) ->
  focus_not_negative (scroll w) ->
  exists w',
    on_focused_attrs f w = Ret w' /\
    values_short (filters w') /\
    keys (filters w') = keys (filters w) /\
    scroll w' = scroll w.
Proof.
  intros Hf Hshort Hfocus. unfold on_focused_attrs, focused_item, filter_items.
  unfold focus_not_negative in Hfocus.
  destruct (focused_index (scroll w)) as [i|]; [|eauto].
  destruct (Z.leb_spec (len (keys (filters w))) i) as [Hge|Hlt]; [eauto|].
  destruct (index_in_range (keys (filters w)) i) as (name & -> & Hname); [lia|].
  destruct (get (filters w) name) as [a|] eqn:Hget.
  - eexists. split; [reflexivity|]. cbn. split; [|split; [|reflexivity]].
    + apply values_short_set; [assumption|]. apply Hf.
      apply get_elem_of in Hget. unfold values_short in Hshort.
      rewrite list.Forall_forall in Hshort. exact (Hshort _ Hget).
    + now apply keys_set_present.
  - exfalso. apply get_None_keys in Hget. contradiction.
Qed.

(** X26: whatever is typed in the filter page, no filter value grows beyond
    five characters, the filters keep their names and order, and no key
    raises: digits are dropped once a value has five characters. *)
Theorem filter_values_stay_short (ks : list filter_key) (w : VideoFilter) :
  values_short (filters w) ->
  focus_not_negative (scroll w) ->
  exists w',
    filter_on_keys h ks w = Ret w' /\
    values_short (filters w') /\
    keys (filters w') = keys (filters w).
Proof.
  revert w. induction ks as [|k ks IH]; intros w Hshort Hfocus; cbn [filter_on_keys].
  - eauto.
  - assert (Hstep : exists w1,
               filter_on_key h k w = Ret w1 /\ values_short (filters w1) /\
               keys (filters w1) = keys (filters w) /\ focus_not_negative (scroll w1)).
    { destruct k as [| |key| |m]; cbn [filter_on_key].
      - destruct (on_focused_attrs_short
                    (fun a => (negb (fst (fst a)), snd (fst a), snd a)) w)
          as (w1 & Hrun & Hs & Hk & Hsc); auto.
        exists w1. rewrite Hsc. auto.
      - destruct (on_focused_attrs_short
                    (fun a => (fst (fst a), drop_last (snd (fst a)), snd a)) w)
          as (w1 & Hrun & Hs & Hk & Hsc); auto.
        { intros a Ha. cbn. pose proof (length_drop_last (snd (fst a))). lia. }
        exists w1. rewrite Hsc. auto.
      - destruct (on_focused_attrs_short
                    (fun a =>
                       if (4 <? String.length (snd (fst a)))%nat then a
                       else (fst (fst a), snd (fst a) +:+ String key EmptyString, snd a)) w)
          as (w1 & Hrun & Hs & Hk & Hsc); auto.
        { intros a Ha. destruct (Nat.ltb_spec 4 (String.length (snd (fst a)))); [assumption|].
          cbn. rewrite length_append_char. lia. }
        exists w1. rewrite Hsc. auto.
      - eexists. split; [reflexivity|]. cbn. split; [|split; [|assumption]].
        + unfold values_short. apply list.Forall_forall. intros na Hna.
          apply list_elem_of_fmap in Hna as (na0 & -> & _). cbn. lia.
        + unfold keys. rewrite map_map. reflexivity.
      - destruct (step_focus_not_negative (filter_items w) m (scroll w) Hfocus)
          as (self' & -> & Hfocus').
        eexists. split; [reflexivity|]. cbn. auto. }
    destruct Hstep as (w1 & -> & Hs1 & Hk1 & Hf1).
    destruct (IH w1 Hs1 Hf1) as (w' & Hrun & Hs' & Hk').
    exists w'. split; [exact Hrun|]. split; [exact Hs'|]. congruence.
Qed.

Lemma set_same {V} (d : dict string V) (name : string) (a : V) :
  get d name = Some a -> set d name a = d.
Proof.
  induction d as [|[n0 a0] d IH]; cbn; [discriminate|].
  destruct (decide (n0 = name)) as [->|Hne].
  - now intros [= ->].
  - intros Hget. now rewrite IH.
Qed.

Lemma set_set {V} (d : dict string V) (name : string) (a b : V) :
  set (set d name a) name b = set d name b.
Proof.
  induction d as [|[n0 a0] d IH]; cbn.
  - now rewrite decide_True.
  - destruct (decide (n0 = name)); cbn.
    + now rewrite decide_True.
    + rewrite decide_False by assumption. now rewrite IH.
Qed.

(** X27: a digit typed on a focused filter whose value has at most four
    characters is appended, and backspace takes it away again, which gives
    back the filters as they were; on a value of five characters the digit
    is dropped. *)
Theorem digit_then_backspace
    (key : Ascii.ascii) (w : VideoFilter) (i : nat) (name : string) (a : attrs) :
  focused_index (scroll w) = Some (Z.of_nat i) ->
  keys (filters w) !! i = Some name ->
  get (filters w) name = Some a ->
  let value := snd (fst a) in
  ((String.length value <= 4)%nat ->
   filter_key_number key w
     = Ret (mkVideoFilter
              (set (filters w) name
                 (fst (fst a), value +:+ String key EmptyString, snd a))
              (scroll w)) /\
   filter_on_keys h [KNumber key; KBackspace] w = Ret w) /\
  ((4 < String.length value)%nat -> filter_key_number key w = Ret w).
Proof.
  intros Hfocus Hname Hget value.
  pose proof (lookup_lt_Some _ _ _ Hname) as Hlt.
  assert (Hrun : forall (f : attrs -> attrs) (d : dict string attrs) (a0 : attrs),
             keys d = keys (filters w) -> get d name = Some a0 ->
             on_focused_attrs f (mkVideoFilter d (scroll w))
             = Ret (mkVideoFilter (set d name (f a0)) (scroll w))).
  { intros f d a0 Hkeys Hd. unfold on_focused_attrs, focused_item, filter_items.
    cbn [filters scroll]. rewrite Hfocus, Hkeys.
    replace (len (keys (filters w)) <=? Z.of_nat i) with false
      by (symmetry; apply Z.leb_gt; unfold len; lia).
    rewrite (index_at _ i name Hname). now rewrite Hd. }
  assert (Hw : w = mkVideoFilter (filters w) (scroll w)) by (now destruct w).
  split.
  - intros Hlen.
    assert (Hnum : filter_key_number key w
                   = Ret (mkVideoFilter
                            (set (filters w) name
                               (fst (fst a), value +:+ String key EmptyString, snd a))
                            (scroll w))).
    { unfold filter_key_number. rewrite Hw at 1. rewrite (Hrun _ _ a eq_refl Hget).
      fold value. replace (4 <? String.length value)%nat with false
        by (symmetry; apply Nat.ltb_ge; lia). reflexivity. }
    split; [exact Hnum|].
    cbn [filter_on_keys filter_on_key]. rewrite Hnum.
    unfold filter_key_backspace.
    rewrite (Hrun _ _ (fst (fst a), value +:+ String key EmptyString, snd a)).
    + cbn [fst snd]. rewrite drop_last_append_char, set_set.
      unfold value. destruct a as [[e val] u]. cbn [fst snd].
      rewrite set_same by assumption. now rewrite <- Hw.
    + apply keys_set_present. apply get_elem_of in Hget.
      apply list_elem_of_fmap. now exists (name, a).
    + apply get_set_eq.
  - intros Hlen. unfold filter_key_number. rewrite Hw at 1.
    rewrite (Hrun _ _ a eq_refl Hget). fold value.
    replace (4 <? String.length value)%nat with true
      by (symmetry; apply Nat.ltb_lt; lia).
    rewrite set_same by assumption. now rewrite <- Hw.
Qed.
End VideoFilterFacts.

(** ** Examples for the further properties *)

Lemma event_updates_two_fields_of_one_object_witness :
  let event := mkFileEvent 7 "" 600 in
  get (_videos sample_client) (ev_id event) = Some 0%nat /\
  heap sample_client !! 0%nat = Some sample_video /\
  local_path <$> heap (snd (_update_file_handler first_raises event sample_client)) !! 0%nat
    = Some None.
Proof.
  cbn zeta. split; [reflexivity|]. split; [reflexivity|].
  pose proof (event_updates_two_fields_of_one_object first_raises
                (mkFileEvent 7 "" 600) 0%nat sample_video sample_client eq_refl eq_refl)
    as H.
  cbn zeta in H. destruct H as (H & _).
  exact (f_equal (fmap local_path) H).
Defined.

Lemma quiet_callbacks_are_all_called_witness :
  let event := mkFileEvent 7 "/tmp/7.mp4" 600 in
  get (_videos sample_client) (ev_id event) = Some 0%nat /\
  heap sample_client !! 0%nat = Some sample_video /\
  Forall (fun cb => quiet cb (updated event sample_video) = None)
    (_download_callbacks sample_client) /\
  fst (_update_file_handler quiet event sample_client) = Ret tt.
Proof.
  cbn zeta.
  assert (H3 : Forall (fun cb => quiet cb (updated (mkFileEvent 7 "/tmp/7.mp4" 600)
                                             sample_video) = None)
                 (_download_callbacks sample_client)).
  { repeat (constructor; [reflexivity|]). constructor. }
  split; [reflexivity|]. split; [reflexivity|]. split; [exact H3|].
  exact (proj1 (quiet_callbacks_are_all_called quiet (mkFileEvent 7 "/tmp/7.mp4" 600)
                  0%nat sample_video sample_client eq_refl eq_refl H3)).
Defined.

Lemma completing_event_frees_only_an_equal_object_witness :
  let event := mkFileEvent 7 "/tmp/7.mp4" 1000 in
  let v := set_downloaded_size 0 sample_video in
  get (_videos refetched_client) (ev_id event) = Some 1%nat /\
  heap refetched_client !! 1%nat = Some v /\
  (1%nat ∉ values (_loading refetched_client)) /\
  no_slot_holds refetched_client (updated event v) /\
  completed (updated event v) = true /\
  _loading (snd (_update_file_handler quiet event refetched_client)) = [(2, 0%nat)].
Proof.
  cbn zeta.
  assert (H3 : 1%nat ∉ values (_loading refetched_client)).
  { intros Hin. apply elem_of_cons in Hin as [Hin|Hin]; [discriminate | inversion Hin]. }
  assert (H4 : no_slot_holds refetched_client
                 (updated (mkFileEvent 7 "/tmp/7.mp4" 1000)
                    (set_downloaded_size 0 sample_video))).
  { constructor; [|constructor]. cbn. intros [=]. }
  split; [reflexivity|]. split; [reflexivity|]. split; [exact H3|].
  split; [exact H4|]. split; [reflexivity|].
  exact (completing_event_frees_only_an_equal_object quiet
           (mkFileEvent 7 "/tmp/7.mp4" 1000) 1%nat _ refetched_client
           eq_refl eq_refl H3 H4).
Defined.

Lemma release_frees_first_equal_slot_witness :
  _loading twin_client = [] ++ (2, 0%nat) :: [] /\
  NoDup (keys (_loading twin_client)) /\
  Forall (fun kv : Z * ref => heap twin_client !! snd kv <> heap twin_client !! 1%nat) [] /\
  heap twin_client !! 0%nat = heap twin_client !! 1%nat /\
  _loading (snd (_remove_from_queue 1%nat twin_client)) = [].
Proof.
  assert (H2 : NoDup (keys (_loading twin_client))).
  { constructor; [intros Hin; inversion Hin | constructor]. }
  split; [reflexivity|]. split; [exact H2|]. split; [constructor|].
  split; [reflexivity|].
  destruct (release_frees_first_equal_slot 1%nat twin_client [] [] 2 0%nat
              eq_refl H2 (Forall_nil _) eq_refl) as [-> _]. reflexivity.
Defined.

Lemma cancel_frees_slot_before_failing_witness :
  let c := with_loading [(2, 0%nat); (3, 1%nat)] twin_client in
  heap c !! 1%nat = Some sample_video /\
  refusing (sent c) (cancelDownloadFile (file_id sample_video)) = Failed "timeout" /\
  fst (cancel_download_video refusing 1%nat c)
    = Raise (TgException "cant cancelDownloadFile: timeout") /\
  _loading (snd (cancel_download_video refusing 1%nat c)) = [(3, 1%nat)].
Proof.
  cbn zeta. split; [reflexivity|]. split; [reflexivity|].
  pose proof (cancel_frees_slot_before_failing refusing 1%nat sample_video
                (with_loading [(2, 0%nat); (3, 1%nat)] twin_client) "timeout"
                eq_refl eq_refl) as H.
  cbn zeta in H. destruct H as (Hexn & _ & _ & Hfirst & _).
  split; [exact Hexn|].
  assert (H3 : NoDup (keys [(2, 0%nat); (3, 1%nat)])).
  { constructor.
    - intros Hin. apply elem_of_cons in Hin as [Hin|Hin]; [discriminate | inversion Hin].
    - constructor; [intros Hin; inversion Hin | constructor]. }
  exact (proj1 (Hfirst [] [(3, 1%nat)] 2 0%nat eq_refl H3 (Forall_nil _) eq_refl)).
Defined.

Lemma cancel_without_slot_only_sends_witness :
  heap sample_client !! 0%nat = Some sample_video /\
  sent (snd (cancel_download_video accepting 0%nat sample_client))
    = [cancelDownloadFile 7] /\
  _loading (snd (cancel_download_video accepting 0%nat sample_client)) = [].
Proof.
  assert (H2 : no_slot_holds sample_client sample_video) by constructor.
  split; [reflexivity|].
  pose proof (cancel_without_slot_only_sends accepting 0%nat sample_video
                sample_client eq_refl) as H.
  cbn zeta in H. destruct H as (Hsent & Hkeep & _).
  split; [exact Hsent | exact (Hkeep H2)].
Defined.

Lemma download_then_cancel_restores_slots_witness :
  heap sample_client !! 0%nat = Some sample_video /\
  no_slot_holds sample_client sample_video /\
  _loading (snd (download_video refusing 0%nat sample_client)) = [(2, 0%nat)] /\
  _loading (snd (cancel_download_video refusing 0%nat
                   (snd (download_video refusing 0%nat sample_client))))
    = _loading sample_client.
Proof.
  assert (H2 : no_slot_holds sample_client sample_video) by constructor.
  split; [reflexivity|]. split; [exact H2|]. split; [reflexivity|].
  exact (proj1 (download_then_cancel_restores_slots refusing 0%nat sample_video
                  sample_client eq_refl) H2).
Defined.

Lemma released_slot_is_taken_next_witness :
  let before := take 5 (_loading full_client) in
  let after := drop 6 (_loading full_client) in
  let v' := mkTgVideo None 60 1000 0 5 105 None None None in
  _loading full_client = before ++ (7, 5%nat) :: after /\
  slots_in_range (_loading full_client) /\
  all_slots_taken (_loading full_client) /\
  Forall (fun kv => heap full_client !! snd kv <> heap full_client !! 5%nat) before /\
  heap full_client !! 5%nat = Some v' /\
  fst (download_video accepting 5%nat (snd (_remove_from_queue 5%nat full_client)))
    = Ret (Some 7).
Proof.
  cbn zeta.
  assert (H1 : _loading full_client
               = take 5 (_loading full_client) ++ (7, 5%nat) :: drop 6 (_loading full_client))
    by (vm_compute; reflexivity).
  assert (H2 : slots_in_range (_loading full_client)).
  { split; apply (bool_decide_unpack _); vm_compute; exact I. }
  assert (H3 : all_slots_taken (_loading full_client)).
  { intros j Hj.
    apply (proj1 (first_free_range_None (_loading full_client) 2 33));
      [vm_compute; reflexivity | lia]. }
  assert (H4 : Forall (fun kv => heap full_client !! snd kv <> heap full_client !! 5%nat)
                 (take 5 (_loading full_client))).
  { apply (bool_decide_unpack _). vm_compute. exact I. }
  assert (H5 : heap full_client !! 5%nat
               = Some (mkTgVideo None 60 1000 0 5 105 None None None))
    by (vm_compute; reflexivity).
  split; [exact H1|]. split; [exact H2|]. split; [exact H3|]. split; [exact H4|].
  split; [exact H5|].
  pose proof (released_slot_is_taken_next accepting 5%nat 5%nat _ full_client
                _ _ 7 5%nat H1 H2 H3 H4 eq_refl H5) as H.
  cbn zeta in H. destruct H as [_ H]. rewrite H. reflexivity.
Defined.

Lemma delete_of_unknown_video_raises_after_request_witness :
  let c := with_videos [] sample_client in
  heap c !! 0%nat = Some sample_video /\
  get (_videos c) (file_id sample_video) = None /\
  accepting (sent c)
    (deleteMessages chat_id (message_id sample_video :: default [] (album sample_video)))
    = Updated Ack /\
  fst (delete_message accepting 0%nat c) = Raise KeyError.
Proof.
  cbn zeta. split; [reflexivity|]. split; [reflexivity|]. split; [reflexivity|].
  now rewrite (delete_of_unknown_video_raises_after_request accepting 0%nat
                 sample_video (with_videos [] sample_client) Ack eq_refl eq_refl eq_refl).
Defined.

Lemma event_after_delete_is_ignored_witness :
  let event := mkFileEvent 7 "/tmp/7.mp4" 1000 in
  heap sample_client !! 0%nat = Some sample_video /\
  get (_videos sample_client) (file_id sample_video) = Some 0%nat /\
  NoDup (keys (_videos sample_client)) /\
  accepting (sent sample_client)
    (deleteMessages chat_id (message_id sample_video :: default [] (album sample_video)))
    = Updated Ack /\
  ev_id event = file_id sample_video /\
  fst (_update_file_handler first_raises event
         (snd (delete_message accepting 0%nat sample_client))) = Ret tt.
Proof.
  cbn zeta.
  assert (H3 : NoDup (keys (_videos sample_client))).
  { constructor; [intros Hin; inversion Hin | constructor]. }
  split; [reflexivity|]. split; [reflexivity|]. split; [exact H3|].
  split; [reflexivity|]. split; [reflexivity|].
  now rewrite (event_after_delete_is_ignored accepting first_raises 0%nat sample_video
                 sample_client Ack (mkFileEvent 7 "/tmp/7.mp4" 1000)
                 eq_refl eq_refl H3 eq_refl eq_refl).
Defined.

Lemma list_videos_catalog_is_the_page_witness :
  accepting (sent sample_client) (get_chat_history chat_id 100 None)
    = Updated (Messages sample_page) /\
  NoDup (keys (_videos (snd (list_videos accepting 100 sample_client)))) /\
  catalog_fields (snd (list_videos accepting 100 sample_client)) 3 = None.
Proof.
  split; [reflexivity|].
  pose proof (list_videos_catalog_is_the_page accepting 100 sample_client sample_page
                eq_refl) as H.
  cbn zeta in H. destruct H as (Hnd & Hpage & _).
  split; [exact Hnd|]. now rewrite Hpage.
Defined.

Lemma fetched_album_collects_the_text_siblings_witness :
  let v := {| caption := Some "holiday"; duration := 95; expected_size := 1000;
              downloaded_size := 0; file_id := 7; message_id := 70;
              album := Some [71; 73]; local_path := Some "";
              source_group := None |} in
  accepting (sent sample_client) (get_chat_history chat_id 100 None)
    = Updated (Messages sample_page) /\
  catalog_fields (snd (list_videos accepting 100 sample_client)) 7 = Some v /\
  exists message,
    message ∈ sample_page /\ message_id v = m_id message /\
    album v = if decide (m_media_album_id message = "0") then None
              else Some (siblings (m_media_album_id message) sample_page).
Proof.
  cbn zeta. split; [reflexivity|]. split; [reflexivity|].
  exact (fetched_album_collects_the_text_siblings accepting 100 sample_client
           sample_page 7 _ eq_refl eq_refl).
Defined.

Lemma refused_fetch_leaves_the_catalog_witness :
  (forall limit anchor,
      refusing (sent sample_client) (get_chat_history chat_id limit anchor)
        = Failed "timeout") /\
  Forall (fun r => is_Some (heap sample_client !! r)) (values (_videos sample_client)) /\
  _videos (apply_refetch refusing (LoadNext 10) sample_client) = _videos sample_client.
Proof.
  assert (H1 : forall limit anchor,
             refusing (sent sample_client) (get_chat_history chat_id limit anchor)
               = Failed "timeout") by reflexivity.
  assert (H2 : Forall (fun r => is_Some (heap sample_client !! r))
                 (values (_videos sample_client))).
  { constructor; [eexists; reflexivity | constructor]. }
  split; [exact H1|]. split; [exact H2|].
  pose proof (refused_fetch_leaves_the_catalog refusing (LoadNext 10) sample_client
                "timeout" H1 H2) as H.
  cbn zeta in H. destruct H as (_ & H & _). exact H.
Defined.

Lemma load_next_keeps_older_entries_witness :
  values (_videos older_client) = [0%nat] ++ [1%nat] /\
  heap older_client !! 1%nat = Some sample_video /\
  accepting (sent older_client)
    (get_chat_history chat_id 10 (Some (message_id sample_video)))
    = Updated (Messages sample_page) /\
  page_entry (collect_albums sample_page) sample_page 3 = None /\
  get (_videos (snd (load_next accepting 10 older_client))) 3 = Some 0%nat.
Proof.
  split; [reflexivity|]. split; [reflexivity|]. split; [reflexivity|].
  split; [reflexivity|].
  pose proof (load_next_keeps_older_entries accepting 10 older_client sample_page
                [0%nat] 1%nat sample_video eq_refl eq_refl eq_refl) as H.
  cbn zeta in H. destruct H as (H & _). now rewrite (H 3 eq_refl).
Defined.

Lemma subscribe_then_unsubscribe_witness :
  (3%nat ∉ [1%nat; 2%nat]) /\
  (add_download_callback 3%nat ;; remove_download_callback 3%nat)
    (with_download_callbacks ([1%nat; 2%nat] ++ 3%nat :: [4%nat]) sample_client)
  = (Ret tt, with_download_callbacks [1%nat; 2%nat; 4%nat; 3%nat] sample_client).
Proof.
  assert (H1 : 3%nat ∉ [1%nat; 2%nat]).
  { intros Hin. apply elem_of_cons in Hin as [Hin|Hin]; [discriminate|].
    apply elem_of_cons in Hin as [Hin|Hin]; [discriminate | inversion Hin]. }
  split; [exact H1|].
  exact (proj2 (subscribe_then_unsubscribe 3%nat [1%nat; 2%nat] [4%nat]
                  sample_client H1)).
Defined.

Lemma stale_focus_scrolls_to_top_witness :
  let self := Tui.mkScrollableListMixin (Some 5) 3 in
  (1 <= length ["a"; "b"])%nat /\
  (Tui.focused_index self = None \/
   exists i, Tui.focused_index self = Some i /\ Tui.len ["a"; "b"] <= i) /\
  Tui._scroll ["a"; "b"] 2 1 self = Ret (Tui.mkScrollableListMixin (Some 0) 0).
Proof.
  cbn zeta.
  assert (H1 : (1 <= length ["a"; "b"])%nat) by (unfold Tui.len; cbn; lia).
  assert (H2 : Tui.focused_index (Tui.mkScrollableListMixin (Some 5) 3) = None \/
               exists i, Tui.focused_index (Tui.mkScrollableListMixin (Some 5) 3) = Some i /\
                         Tui.len ["a"; "b"] <= i).
  { right. exists 5. split; [reflexivity|]. unfold Tui.len. cbn. lia. }
  split; [exact H1|]. split; [exact H2|].
  exact (proj1 (stale_focus_scrolls_to_top ["a"; "b"] 2 1 _ H1 H2)).
Defined.

Lemma window_1_0_of_3 :
  in_window (Tui.len ["a"; "b"; "c"]) 2 (Tui.mkScrollableListMixin (Some 1) 0).
Proof. split; cbn; [lia|]. unfold Tui.len. cbn. lia. Defined.

Lemma scroll_by_zero_keeps_a_valid_focus_witness :
  let self := Tui.mkScrollableListMixin (Some 1) 0 in
  Tui.focused_index self = Some 1 /\
  in_window (Tui.len ["a"; "b"; "c"]) 2 self /\
  Tui._scroll ["a"; "b"; "c"] 2 0 self = Ret self.
Proof.
  cbn zeta. split; [reflexivity|]. split; [exact window_1_0_of_3|].
  exact (scroll_by_zero_keeps_a_valid_focus ["a"; "b"; "c"] 2 1
           (Tui.mkScrollableListMixin (Some 1) 0) eq_refl window_1_0_of_3).
Defined.

Lemma scroll_there_and_back_witness :
  let self := Tui.mkScrollableListMixin (Some 1) 0 in
  Tui.focused_index self = Some 1 /\
  0 <= 1 < Tui.len ["a"; "b"; "c"] /\
  exists self1 self2,
    Tui._scroll ["a"; "b"; "c"] 2 7 self = Ret self1 /\
    Tui._scroll ["a"; "b"; "c"] 2 (- 7) self1 = Ret self2 /\
    Tui.focused_index self2 = Some 1.
Proof.
  cbn zeta.
  assert (H2 : 0 <= 1 < Tui.len ["a"; "b"; "c"]) by (unfold Tui.len; cbn; lia).
  split; [reflexivity|]. split; [exact H2|].
  exact (scroll_there_and_back ["a"; "b"; "c"] 2 7 1
           (Tui.mkScrollableListMixin (Some 1) 0) eq_refl H2).
Defined.

Lemma focus_wraps_at_the_ends_witness :
  (1 <= length ["a"; "b"; "c"])%nat /\ 1 <= 2 /\ 0 <= 1 /\
  Tui.key_down ["a"; "b"; "c"] 2 (Tui.mkScrollableListMixin (Some 2) 1)
    = Ret (Tui.mkScrollableListMixin (Some 0) 0) /\
  Tui.key_up ["a"; "b"; "c"] 2 (Tui.mkScrollableListMixin (Some 0) 0)
    = Ret (Tui.mkScrollableListMixin (Some 2) 1).
Proof.
  assert (H1 : (1 <= length ["a"; "b"; "c"])%nat) by (unfold Tui.len; cbn; lia).
  assert (H2 : 1 <= 2) by lia.
  assert (H3 : 0 <= 1) by lia.
  split; [exact H1|]. split; [exact H2|]. split; [exact H3|].
  exact (focus_wraps_at_the_ends ["a"; "b"; "c"] 2 1 H1 H2 H3).
Defined.

Lemma window_0_0_of_4 :
  in_window (Tui.len ["a"; "b"; "c"; "d"]) (5 - 2) (Tui.mkScrollableListMixin (Some 0) 0).
Proof. split; cbn; [lia|]. unfold Tui.len. cbn. lia. Defined.

Lemma click_keeps_the_window_witness :
  let self := Tui.mkScrollableListMixin (Some 0) 0 in
  in_window (Tui.len ["a"; "b"; "c"; "d"]) (5 - 2) self /\
  0 <= 3 <= 5 - 1 /\
  in_window (Tui.len ["a"; "b"; "c"; "d"]) (5 - 2)
    (Tui.on_click ["a"; "b"; "c"; "d"] 5 3 self).
Proof.
  cbn zeta.
  assert (H2 : 0 <= 3 <= 5 - 1) by lia.
  split; [exact window_0_0_of_4|]. split; [exact H2|].
  exact (proj1 (click_keeps_the_window ["a"; "b"; "c"; "d"] 5 3 _ window_0_0_of_4 H2)).
Defined.

Lemma click_on_last_row_leaves_the_window_witness :
  let self := Tui.mkScrollableListMixin (Some 0) 0 in
  1 <= 5 - 3 /\
  0 <= Tui.render_offset self /\
  Tui.render_offset self + (5 - 3) < Tui.len ["a"; "b"; "c"; "d"] /\
  Tui.focused_index (Tui.on_click ["a"; "b"; "c"; "d"] 5 (5 - 2) self) = Some 2.
Proof.
  cbn zeta.
  assert (H1 : 1 <= 5 - 3) by lia.
  assert (H2 : 0 <= Tui.render_offset (Tui.mkScrollableListMixin (Some 0) 0))
    by (unfold Tui.len; cbn; lia).
  assert (H3 : Tui.render_offset (Tui.mkScrollableListMixin (Some 0) 0) + (5 - 3)
               < Tui.len ["a"; "b"; "c"; "d"]) by (unfold Tui.len; cbn; lia).
  split; [exact H1|]. split; [exact H2|]. split; [exact H3|].
  exact (proj1 (click_on_last_row_leaves_the_window ["a"; "b"; "c"; "d"] 5 _ H1 H2 H3)).
Defined.

Lemma NoDup_keys_older : NoDup (keys (_videos older_client)).
Proof.
  constructor.
  - intros Hin. apply elem_of_cons in Hin as [Hin|Hin]; [discriminate | inversion Hin].
  - constructor; [intros Hin; inversion Hin | constructor].
Defined.

Lemma delete_key_moves_the_focus_witness :
  let self := Tui.mkScrollableListMixin (Some 0) 0 in
  _videos older_client = [] ++ (file_id older_video, 0%nat) :: [(7, 1%nat)] /\
  NoDup (keys (_videos older_client)) /\
  heap older_client !! 0%nat = Some older_video /\
  Tui.focused_index self
    = Some (Tui.len (Widgets.items (fun _ => true) (with_videos [] older_client))) /\
  accepting (sent older_client)
    (deleteMessages chat_id (message_id older_video :: default [] (album older_video)))
    = Updated Ack /\
  Widgets.key_d accepting (fun _ => true) 3 (older_client, self)
    = (Ret tt,
       (with_videos [(7, 1%nat)] (with_sent [deleteMessages 0 [90]] older_client),
        self)).
Proof.
  cbn zeta.
  split; [reflexivity|]. split; [exact NoDup_keys_older|]. split; [reflexivity|].
  split; [reflexivity|]. split; [reflexivity|].
  exact (proj1 (delete_key_moves_the_focus accepting (fun _ => true) 3 older_client
                  (Tui.mkScrollableListMixin (Some 0) 0) [] [(7, 1%nat)] 0%nat
                  older_video Ack eq_refl NoDup_keys_older eq_refl eq_refl eq_refl
                  eq_refl)).
Defined.

Lemma refused_delete_key_changes_nothing_witness :
  let self := Tui.mkScrollableListMixin (Some (Z.of_nat 1)) 0 in
  Tui.focused_index self = Some (Z.of_nat 1) /\
  Widgets.items (fun _ => true) older_client !! 1%nat = Some 1%nat /\
  heap older_client !! 1%nat = Some sample_video /\
  refusing (sent older_client)
    (deleteMessages chat_id (message_id sample_video :: default [] (album sample_video)))
    = Failed "timeout" /\
  snd (snd (Widgets.key_d refusing (fun _ => true) 3 (older_client, self))) = self /\
  _videos (fst (snd (Widgets.key_d refusing (fun _ => true) 3 (older_client, self))))
    = _videos older_client.
Proof.
  cbn zeta. split; [reflexivity|]. split; [reflexivity|]. split; [reflexivity|].
  split; [reflexivity|].
  rewrite (refused_delete_key_changes_nothing refusing (fun _ => true) 3 older_client
             (Tui.mkScrollableListMixin (Some (Z.of_nat 1)) 0) 1 1%nat sample_video
             "timeout" eq_refl eq_refl eq_refl eq_refl).
  split; reflexivity.
Defined.

Lemma NoDup_two_widgets : NoDup ["downloads"; "videos"].
Proof.
  constructor.
  - intros Hin. apply elem_of_cons in Hin as [Hin|Hin]; [discriminate | inversion Hin].
  - constructor; [intros Hin; inversion Hin | constructor].
Defined.

Lemma tab_goes_round_witness :
  NoDup ["downloads"; "videos"] /\
  ["downloads"; "videos"] !! 0%nat = Some "downloads" /\
  Widgets.tabs ["downloads"; "videos"] 2 (Widgets.mkMyApp true (Some "downloads"))
    = Ret (Widgets.mkMyApp true (Some "downloads")).
Proof.
  split; [exact NoDup_two_widgets|]. split; [reflexivity|].
  pose proof (tab_goes_round ["downloads"; "videos"] 0 "downloads" 3
                NoDup_two_widgets eq_refl) as (_ & H & _).
  exact H.
Defined.

Lemma values_short_default : values_short (Widgets.filters sample_filter).
Proof.
  unfold values_short. cbn.
  repeat (constructor; [cbn; lia|]). constructor.
Defined.

Lemma filter_values_stay_short_witness :
  values_short (Widgets.filters sample_filter) /\
  focus_not_negative (Widgets.scroll sample_filter) /\
  exists w',
    Widgets.filter_on_keys 4
      [Widgets.KNumber "0"%char; Widgets.KNumber "0"%char; Widgets.KNumber "0"%char;
       Widgets.KNumber "0"%char; Widgets.KMove (Tui.Scroll 1); Widgets.KBackspace]
      sample_filter = Ret w' /\
    values_short (Widgets.filters w') /\
    keys (Widgets.filters w') = keys (Widgets.filters sample_filter).
Proof.
  assert (H2 : focus_not_negative (Widgets.scroll sample_filter)) by (unfold Tui.len; cbn; lia).
  split; [exact values_short_default|]. split; [exact H2|].
  exact (filter_values_stay_short 4 _ sample_filter values_short_default H2).
Defined.

Lemma digit_then_backspace_witness :
  Tui.focused_index (Widgets.scroll sample_filter) = Some (Z.of_nat 0) /\
  keys (Widgets.filters sample_filter) !! 0%nat = Some "max duration" /\
  get (Widgets.filters sample_filter) "max duration" = Some (false, "15", "minuts") /\
  Widgets.filter_on_keys 4 [Widgets.KNumber "7"%char; Widgets.KBackspace] sample_filter
    = Ret sample_filter.
Proof.
  split; [reflexivity|]. split; [reflexivity|]. split; [reflexivity|].
  pose proof (digit_then_backspace 4 "7"%char sample_filter 0 "max duration"
                (false, "15", "minuts") eq_refl eq_refl eq_refl) as H.
  cbn zeta in H. destruct H as [H _].
  exact (proj2 (H ltac:(cbn; lia))).
Defined.
